(** * wmx2obj: world map geometry to Wavefront OBJ

    A shallow embedding of [wmx2obj.c] and the properties of its decoder.

    Conventions of the embedding (LP64, as on the platforms the tool targets):
    - [unsigned char] is a [Byte.byte], read as a [Z] in [0, 255];
    - [unsigned int] and [int] are 32 bits wide, [unsigned long int] is 64
      bits wide; every C operation is followed by the wrap of its type
      ([uint], [sint], [ulong]);
    - a [const unsigned char *] into the segment buffer is the buffer (a
      [list byte]) and a [Z] index into it; a read outside the buffer has no
      defined behaviour in C and is the outcome [Undef] here;
    - the streams [in], [out] and [stderr] are part of the [world] that every
      function threads through. *)

From Stdlib Require Import ZArith List String Ascii Bool Lia.
From Stdlib Require Import Strings.Byte DecimalString.
Import ListNotations.
Local Open Scope Z_scope.

(** ** Constants ([#define]s, lines 12-27) *)

Definition SEGMENT_SIZE : Z := 0x9000.
Definition SEGMENT_MIN : Z := 0.
Definition SEGMENT_MAX : Z := 834.
Definition SEGMENTS_PER_ROW : Z := 32.
Definition SEGMENT_BOUNDS : Z := 8192.
Definition BLOCKS_PER_SEGMENT : Z := 16.
Definition GROUP_ID_SIZE : Z := 4.
Definition BLOCK_OFFSET_SIZE : Z := 4.
Definition BLOCK_SIZE : Z := SEGMENT_SIZE / BLOCKS_PER_SEGMENT.
Definition BLOCK_OFFSET_MAX : Z := SEGMENT_SIZE - BLOCK_SIZE.
Definition BLOCK_HEADER_SIZE : Z := 4.
Definition BLOCKS_PER_ROW : Z := 4.
Definition BLOCK_BOUNDS : Z := SEGMENT_BOUNDS / BLOCKS_PER_ROW.
Definition POLYGON_SIZE : Z := 16.
Definition VERTEX_SIZE : Z := 8.
Definition VERTICES_PER_POLYGON : Z := 3.

(** ** Machine integers *)

(** Wrap of [unsigned int]. *)
Definition uint (x : Z) : Z := x mod 2 ^ 32.
(** Wrap of [unsigned long int]. *)
Definition ulong (x : Z) : Z := x mod 2 ^ 64.
(** Wrap of [int]: the two's complement reading of the low 32 bits. *)
Definition sint (x : Z) : Z := (x + 2 ^ 31) mod 2 ^ 32 - 2 ^ 31.
(** Wrap of [long int]. *)
Definition slong (x : Z) : Z := (x + 2 ^ 63) mod 2 ^ 64 - 2 ^ 63.
(** [~] on an [unsigned int]. *)
Definition uint_not (x : Z) : Z := uint (Z.lnot x).

(** The value of an [unsigned char]. *)
Definition byte_val (b : byte) : Z := Z.of_N (Byte.to_N b).

(** ** Text *)

(** The newline character. *)
Definition nl : string := String (ascii_of_nat 10) EmptyString.

(** [%lu]. *)
Definition dec (n : Z) : string := NilZero.string_of_uint (N.to_uint (Z.to_N n)).

(** One decimal digit. *)
Definition digit (d : Z) : string :=
  String (ascii_of_nat (48 + Z.to_nat d)) EmptyString.

(** [%.3Lf] of [n * 0.001L] for an integer [n]: the product differs from
    n/1000 by a relative error of about 2^-63, far less than half a unit of
    the third decimal for every [n] a 64-bit integer holds up to 2^62, so the
    digits printed are those of n/1000: the quotient, a point, and the
    remainder on three digits. *)
Definition fixed3 (n : Z) : string :=
  (dec (n / 1000) ++ "." ++ digit (n mod 1000 / 100)
     ++ digit (n mod 100 / 10) ++ digit (n mod 10))%string.

(** The first [n] characters of [s]. *)
Fixpoint take (n : nat) (s : string) : string :=
  match n, s with
  | S n', String c s' => String c (take n' s')
  | _, _ => EmptyString
  end.

(** ** Streams *)

(** The output stream: the text it has taken, the number of characters the
    device still accepts, and the error indicator [ferror] reports.  The
    indicator is sticky: the program never clears it. *)
Record OFILE := mkOFILE { text : string; room : nat; error : bool }.

(** A write of [s] ([fputc], [fputs], [fprintf]): the characters that fit are
    taken, and the indicator is set when some did not. *)
Definition write (s : string) (f : OFILE) : OFILE :=
  {| text := text f ++ take (room f) s;
     room := room f - String.length s;
     error := error f || (room f <? String.length s)%nat |}.

(** The input stream: the bytes the device delivers, the position, whether
    the stream can be positioned, what lies behind the last byte (the end of
    the file, or a read error when the device is [faulty]: a directory, a
    medium that fails), and the end-of-file indicator [feof] reports. *)
Record IFILE := mkIFILE {
  content : list byte; fpos : Z; seekable : bool; faulty : bool; eof : bool
}.

(** ** State *)

Record VertexIndexData := mkVID { vert_max : Z; prev_vert_max : Z }.

(** [vid_log] is a ghost field: every value [vid] has held, newest first. *)
Record world := mkWorld {
  vid : VertexIndexData;
  vid_log : list VertexIndexData;
  out : OFILE;
  inp : IFILE;
  stderr : list string;
  heap_ok : bool
}.

Definition with_vid (v : VertexIndexData) (w : world) : world :=
  {| vid := v; vid_log := vid w :: vid_log w; out := out w; inp := inp w;
     stderr := stderr w; heap_ok := heap_ok w |}.

Definition with_out (f : OFILE) (w : world) : world :=
  {| vid := vid w; vid_log := vid_log w; out := f; inp := inp w;
     stderr := stderr w; heap_ok := heap_ok w |}.

Definition with_inp (f : IFILE) (w : world) : world :=
  {| vid := vid w; vid_log := vid_log w; out := out w; inp := f;
     stderr := stderr w; heap_ok := heap_ok w |}.

Definition with_stderr (l : list string) (w : world) : world :=
  {| vid := vid w; vid_log := vid_log w; out := out w; inp := inp w;
     stderr := l; heap_ok := heap_ok w |}.

(** ** The monad of the program: state, and undefined behaviour *)

Inductive outcome (A : Type) : Type :=
| Ret (a : A) (w : world)
| Undef (idx : Z) (w : world).
Arguments Ret {A} a w.
Arguments Undef {A} idx w.

Definition M (A : Type) : Type := world -> outcome A.

Definition ret {A} (a : A) : M A := fun w => Ret a w.

Definition bind {A B} (m : M A) (k : A -> M B) : M B :=
  fun w => match m w with
           | Ret a w' => k a w'
           | Undef i w' => Undef i w'
           end.

Notation "x <- m ;; k" := (bind m (fun x => k))
  (at level 61, m at next level, right associativity).
Notation "' pat <- m ;; k" := (bind m (fun x => match x with pat => k end))
  (at level 61, pat pattern, m at next level, right associativity).

(** The world a computation ends in, whichever way it ends. *)
Definition final {A} (o : outcome A) : world :=
  match o with Ret _ w => w | Undef _ w => w end.

(** [buf[i]]. *)
Definition rd (buf : list byte) (i : Z) : M Z :=
  fun w => if (0 <=? i) && (i <? Z.of_nat (List.length buf))
           then Ret (byte_val (nth (Z.to_nat i) buf x00)) w
           else Undef i w.

(** [fputc], [fputs] and [fprintf] on [out]. *)
Definition fwrite (s : string) : M unit :=
  fun w => Ret tt (with_out (write s (out w)) w).

(** [ferror(out)]. *)
Definition ferror : M bool := fun w => Ret (error (out w)) w.

(** [fputs(s, stderr)]. *)
Definition eputs (s : string) : M unit :=
  fun w => Ret tt (with_stderr (stderr w ++ [s]) w).

(** Reads and assignments through [vert_idx_data]. *)
Definition get_vid : M VertexIndexData := fun w => Ret (vid w) w.

Definition set_vert_max (v : Z) : M unit :=
  fun w => Ret tt (with_vid {| vert_max := v; prev_vert_max := prev_vert_max (vid w) |} w).

Definition set_prev_vert_max (v : Z) : M unit :=
  fun w => Ret tt (with_vid {| vert_max := vert_max (vid w); prev_vert_max := v |} w).

(** The declaration of [vert_idx_data] with its first assignment, line 218:
    the history of the structure starts here. *)
Definition init_vid (v : VertexIndexData) : M unit :=
  fun w => Ret tt {| vid := v; vid_log := []; out := out w; inp := inp w;
                     stderr := stderr w; heap_ok := heap_ok w |}.

(** [malloc(SEGMENT_SIZE)]: whether the buffer was obtained. *)
Definition malloc : M bool := fun w => Ret (heap_ok w) w.

(** [fseek(in, off, SEEK_SET)]: the result is non-zero on failure; a
    successful call clears the end-of-file indicator. *)
Definition fseek (off : Z) : M bool :=
  fun w => if seekable (inp w) && (0 <=? off)
           then Ret false (with_inp {| content := content (inp w); fpos := off;
                                       seekable := seekable (inp w);
                                       faulty := faulty (inp w); eof := false |} w)
           else Ret true w.

(** [fread(buf, SEGMENT_SIZE, 1, in)]: the segment when the indicator is
    clear and the device still delivers [SEGMENT_SIZE] bytes from the
    position on.  Otherwise no item is read: with the indicator set nothing
    is tried; else the bytes that are left are consumed, and behind them
    either the end of the file is found, which sets the indicator, or the
    read fails, which leaves it clear. *)
Definition fread_segment : M (option (list byte)) :=
  fun w =>
    let rest := skipn (Z.to_nat (fpos (inp w))) (content (inp w)) in
    if eof (inp w) then Ret None w
    else if SEGMENT_SIZE <=? Z.of_nat (List.length rest)
    then Ret (Some (firstn (Z.to_nat SEGMENT_SIZE) rest))
             (with_inp {| content := content (inp w);
                          fpos := fpos (inp w) + SEGMENT_SIZE;
                          seekable := seekable (inp w);
                          faulty := faulty (inp w); eof := false |} w)
    else Ret None
             (with_inp {| content := content (inp w);
                          fpos := Z.max (fpos (inp w))
                                    (Z.of_nat (List.length (content (inp w))));
                          seekable := seekable (inp w);
                          faulty := faulty (inp w);
                          eof := negb (faulty (inp w)) |} w).

(** [feof(in)]. *)
Definition feof : M bool := fun w => Ret (eof (inp w)) w.

(** ** The program *)

(** [limit_within_bounds], lines 81-85. *)
Definition limit_within_bounds (val : Z) : Z :=
  if val <=? BLOCK_BOUNDS then val
  else Z.land (uint (uint_not val + 1)) 0xFFFF.

(** [(unsigned int)(buf[0] | (buf[1] << 8))]. *)
Definition le16 (b0 b1 : Z) : Z := uint (sint (Z.lor b0 (sint (Z.shiftl b1 8)))).

(** [convert_vertex], lines 87-103. *)
Definition convert_vertex (x z : Z) (buf : list byte) (p : Z) : M bool :=
  b0 <- rd buf p ;; b1 <- rd buf (p + 1) ;;
  let bx := limit_within_bounds (le16 b0 b1) in
  b2 <- rd buf (p + 2) ;; b3 <- rd buf (p + 3) ;;
  let by_ := limit_within_bounds (le16 b2 b3) in
  b4 <- rd buf (p + 4) ;; b5 <- rd buf (p + 5) ;;
  let bz := limit_within_bounds (le16 b4 b5) in
  _ <- fwrite ("v " ++ fixed3 (ulong (x + bx)) ++ " " ++ fixed3 by_ ++ " "
                    ++ fixed3 (ulong (z + bz)) ++ nl) ;;
  e <- ferror ;;
  ret (negb e).

(** The loop of [convert_polygon], lines 113-118: [n] iterations are left,
    [i] is the loop variable. *)
Fixpoint polygon_indices (n : nat) (i : Z) (buf : list byte) (p : Z) : M unit :=
  match n with
  | O => ret tt
  | S n' =>
      v <- get_vid ;;
      b <- rd buf (p + i) ;;
      let vert := ulong (prev_vert_max v + b) in
      _ <- fwrite (" " ++ dec vert) ;;
      v <- get_vid ;;
      _ <- (if vert >? vert_max v then set_vert_max vert else ret tt) ;;
      polygon_indices n' (i + 1) buf p
  end.

(** [convert_polygon], lines 105-122. *)
Definition convert_polygon (buf : list byte) (p : Z) : M bool :=
  _ <- fwrite "f" ;;
  _ <- polygon_indices (Z.to_nat VERTICES_PER_POLYGON) 0 buf p ;;
  _ <- fwrite nl ;;
  e <- ferror ;;
  ret (negb e).

(** [for (i = 0; res && i != num_polys; ++i, buf += POLYGON_SIZE)], line 158:
    [n] is [num_polys - i], and the result carries the advanced pointer. *)
Fixpoint polygons_loop (n : nat) (res : bool) (buf : list byte) (p : Z)
  : M (bool * Z) :=
  match n with
  | O => ret (res, p)
  | S n' =>
      if res then
        r <- convert_polygon buf p ;;
        polygons_loop n' r buf (p + POLYGON_SIZE)
      else ret (res, p)
  end.

(** [for (i = 0; res && i != num_verts; ++i, buf += VERTEX_SIZE)], line 160. *)
Fixpoint vertices_loop (n : nat) (res : bool) (x z : Z) (buf : list byte) (p : Z)
  : M (bool * Z) :=
  match n with
  | O => ret (res, p)
  | S n' =>
      if res then
        r <- convert_vertex x z buf p ;;
        vertices_loop n' r x z buf (p + VERTEX_SIZE)
      else ret (res, p)
  end.

(** [buf[0] | (buf[1] << 8UL) | (buf[2] << 16UL) | (buf[3] << 24UL)] in [int]
    (the left operand of a shift gives the type), then
    [(unsigned long int)]. *)
Definition block_offset (b0 b1 b2 b3 : Z) : Z :=
  ulong (sint (Z.lor (Z.lor (Z.lor b0 (sint (Z.shiftl b1 8)))
                            (sint (Z.shiftl b2 16)))
                     (sint (Z.shiftl b3 24)))).

(** [x += pos % BLOCKS_PER_ROW * BLOCK_BOUNDS], line 152. *)
Definition block_x (pos x : Z) : Z :=
  ulong (x + ulong (uint (pos mod BLOCKS_PER_ROW) * BLOCK_BOUNDS)).
(** [z += pos / BLOCKS_PER_ROW * BLOCK_BOUNDS], line 153. *)
Definition block_z (pos z : Z) : Z :=
  ulong (z + ulong (uint (pos / BLOCKS_PER_ROW) * BLOCK_BOUNDS)).

(** Lines 155-161 of [convert_block]: the bookkeeping assignment and the two
    loops, up to the point just before [++vert_idx_data->vert_max]. *)
Definition convert_block_records (num_polys num_verts x z : Z)
    (buf : list byte) (p : Z) : M bool :=
  v <- get_vid ;;
  _ <- set_prev_vert_max (vert_max v) ;;
  '(res, p) <- polygons_loop (Z.to_nat num_polys) true buf p ;;
  '(res, _) <- vertices_loop (Z.to_nat num_verts) res x z buf p ;;
  ret res.

(** [offset_loc = GROUP_ID_SIZE + pos * BLOCK_OFFSET_SIZE], line 136. *)
Definition offset_loc (pos : Z) : Z :=
  ulong (uint (GROUP_ID_SIZE + uint (pos * BLOCK_OFFSET_SIZE))).

(** [++vert_idx_data->vert_max], line 163. *)
Definition pad_vert_max : M unit :=
  v <- get_vid ;;
  set_vert_max (ulong (vert_max v + 1)).

(** [convert_block], lines 124-166. *)
Definition convert_block (pos x z : Z) (buf : list byte) : M bool :=
  let p := offset_loc pos in
  b0 <- rd buf p ;; b1 <- rd buf (p + 1) ;;
  b2 <- rd buf (p + 2) ;; b3 <- rd buf (p + 3) ;;
  let offset := block_offset b0 b1 b2 b3 in
  if offset >? BLOCK_OFFSET_MAX then
    _ <- eputs ("Block offset too large" ++ nl) ;;
    ret false
  else
    let p := p + (offset - offset_loc pos) in
    num_polys <- rd buf p ;;
    num_verts <- rd buf (p + 1) ;;
    let p := p + BLOCK_HEADER_SIZE in
    res <- convert_block_records num_polys num_verts
             (block_x pos x) (block_z pos z) buf p ;;
    _ <- pad_vert_max ;;
    ret res.

(** [for (i = 0; res && i != BLOCKS_PER_SEGMENT; ++i)], line 190: [n] is
    [BLOCKS_PER_SEGMENT - i]. *)
Fixpoint blocks_loop (n : nat) (i : Z) (res : bool) (x z : Z) (buf : list byte)
  : M bool :=
  match n with
  | O => ret res
  | S n' =>
      if res then
        r <- convert_block i x z buf ;;
        blocks_loop n' (uint (i + 1)) r x z buf
      else ret res
  end.

(** [pos % SEGMENTS_PER_ROW * SEGMENT_BOUNDS], line 186. *)
Definition segment_x (pos : Z) : Z :=
  ulong (uint (pos mod SEGMENTS_PER_ROW) * SEGMENT_BOUNDS).
(** [pos / SEGMENTS_PER_ROW * SEGMENT_BOUNDS], line 187. *)
Definition segment_z (pos : Z) : Z :=
  ulong (uint (pos / SEGMENTS_PER_ROW) * SEGMENT_BOUNDS).

(** [convert_segment], lines 168-193. *)
Definition convert_segment (pos : Z) : M bool :=
  r <- fread_segment ;;
  match r with
  | None =>
      _ <- eputs ("Read failed" ++ nl) ;;
      at_end <- feof ;;
      _ <- (if at_end then eputs ("EOF was reached" ++ nl) else ret tt) ;;
      ret false
  | Some buf =>
      blocks_loop (Z.to_nat BLOCKS_PER_SEGMENT) 0 true
        (segment_x pos) (segment_z pos) buf
  end.

(** [for (i = start; res && i != end; ++i, ++j)], line 227: [i] only counts,
    so the loop is on [n], the number of increments that take [i] to [end]
    ([segment_count] below). *)
Fixpoint segments_loop (n : nat) (j : Z) (res : bool) : M bool :=
  match n with
  | O => ret res
  | S n' =>
      if res then
        r <- convert_segment j ;;
        segments_loop n' (uint (j + 1)) r
      else ret res
  end.

(** The number of times [++i] runs from [i = start] until [i == end] holds
    for the incremented [end], in [unsigned int]. *)
Definition segment_count (start end_ : Z) : nat :=
  Z.to_nat (uint (uint (end_ + 1) - start)).

(** [convert_to_obj], lines 195-231. *)
Definition convert_to_obj (start end_ : Z) : M bool :=
  failed <- fseek (slong (ulong (start * SEGMENT_SIZE))) ;;
  if failed then
    _ <- eputs ("Seek failed" ++ nl) ;;
    ret false
  else
    got <- malloc ;;
    if negb got then
      _ <- eputs ("Out of memory" ++ nl) ;;
      ret false
    else
      _ <- init_vid {| vert_max := 1; prev_vert_max := 1 |} ;;
      let z0 := start / SEGMENTS_PER_ROW in
      let z1 := end_ / SEGMENTS_PER_ROW in
      let j := if negb (z0 =? z1) then start mod SEGMENTS_PER_ROW else 0 in
      segments_loop (segment_count start end_) j true.

(** * The effect of the program, as functions

    What the functions above do to the world when every read is inside the
    buffer, written without the monad; the lemmas below relate the two. *)

(** ** Reads *)

(** [buf[i]] as a value. *)
Definition byte_at (buf : list byte) (i : Z) : Z :=
  byte_val (nth (Z.to_nat i) buf x00).

Definition in_buf (buf : list byte) (i : Z) : Prop :=
  0 <= i < Z.of_nat (List.length buf).

(** ** One vertex record *)

(** The 16-bit value [convert_vertex] reads at [p]. *)
Definition le16_at (buf : list byte) (p : Z) : Z :=
  le16 (byte_at buf p) (byte_at buf (p + 1)).

(** The line [convert_vertex] prints for the record at [p]. *)
Definition vertex_text (x z : Z) (buf : list byte) (p : Z) : string :=
  ("v " ++ fixed3 (ulong (x + limit_within_bounds (le16_at buf p)))
     ++ " " ++ fixed3 (limit_within_bounds (le16_at buf (p + 2)))
     ++ " " ++ fixed3 (ulong (z + limit_within_bounds (le16_at buf (p + 4))))
     ++ nl)%string.

(** The world after [convert_vertex] on the record at [p]. *)
Definition vertex_world (x z : Z) (buf : list byte) (p : Z) (w : world) : world :=
  with_out (write (vertex_text x z buf p) (out w)) w.

(** ** One triangle record *)

(** One iteration of the loop of [convert_polygon], as a function on the
    world. *)
Definition index_step (buf : list byte) (p i : Z) (w : world) : world :=
  let vert := ulong (prev_vert_max (vid w) + byte_at buf (p + i)) in
  let w1 := with_out (write (" " ++ dec vert) (out w)) w in
  if vert >? vert_max (vid w1)
  then with_vid {| vert_max := vert; prev_vert_max := prev_vert_max (vid w1) |} w1
  else w1.

(** The world after [convert_polygon] on the record at [p]. *)
Definition polygon_world (buf : list byte) (p : Z) (w : world) : world :=
  let w0 := with_out (write "f" (out w)) w in
  let w3 := index_step buf p 2 (index_step buf p 1 (index_step buf p 0 w0)) in
  with_out (write nl (out w3)) w3.

(** The global index of the local index at byte [i] of the record at [p]. *)
Definition global_index (pvm : Z) (buf : list byte) (p i : Z) : Z :=
  ulong (pvm + byte_at buf (p + i)).

(** The line [convert_polygon] prints for the record at [p]. *)
Definition face_text (pvm : Z) (buf : list byte) (p : Z) : string :=
  ("f" ++ (" " ++ dec (global_index pvm buf p 0))
       ++ (" " ++ dec (global_index pvm buf p 1))
       ++ (" " ++ dec (global_index pvm buf p 2)) ++ nl)%string.

(** The update of [vert_max] at line 116: a strict comparison. *)
Definition bump (vm vert : Z) : Z := if vert >? vm then vert else vm.

(** ** The record loops of a block *)

(** The world after [n] triangle records, and after [n] vertex records. *)
Fixpoint polys_world (n : nat) (buf : list byte) (p : Z) (w : world) : world :=
  match n with
  | O => w
  | S n' => polys_world n' buf (p + POLYGON_SIZE) (polygon_world buf p w)
  end.

Fixpoint verts_world (n : nat) (x z : Z) (buf : list byte) (p : Z) (w : world)
  : world :=
  match n with
  | O => w
  | S n' => verts_world n' x z buf (p + VERTEX_SIZE) (vertex_world x z buf p w)
  end.

(** The face lines of [n] triangle records from [p] on. *)
Fixpoint faces_text (pvm : Z) (buf : list byte) (p : Z) (n : nat) : string :=
  match n with
  | O => ""
  | S n' => face_text pvm buf p ++ faces_text pvm buf (p + POLYGON_SIZE) n'
  end.

(** The vertex lines of [n] vertex records from [p] on. *)
Fixpoint verts_text (x z : Z) (buf : list byte) (p : Z) (n : nat) : string :=
  match n with
  | O => ""
  | S n' => vertex_text x z buf p ++ verts_text x z buf (p + VERTEX_SIZE) n'
  end.

(** The world after [prev_vert_max = vert_max], line 155. *)
Definition enter_block (w : world) : world :=
  with_vid {| vert_max := vert_max (vid w); prev_vert_max := vert_max (vid w) |} w.

(** The world after the bookkeeping assignment and both loops of a block. *)
Definition records_world (np nv : nat) (x z : Z) (buf : list byte) (p : Z)
    (w : world) : world :=
  verts_world nv x z buf (p + POLYGON_SIZE * Z.of_nat np)
    (polys_world np buf p (enter_block w)).

(** The text a block adds: its face lines, then its vertex lines. *)
Definition block_text (pvm x z : Z) (buf : list byte) (p : Z) (np nv : nat)
  : string :=
  (faces_text pvm buf p np
   ++ verts_text x z buf (p + POLYGON_SIZE * Z.of_nat np) nv)%string.

(** ** The offset table *)

(** The 4-byte little-endian value at [p]. *)
Definition le32_at (buf : list byte) (p : Z) : Z :=
  byte_at buf p + 2 ^ 8 * byte_at buf (p + 1) + 2 ^ 16 * byte_at buf (p + 2)
  + 2 ^ 24 * byte_at buf (p + 3).

(** The offset [convert_block] computes for the block at [pos]. *)
Definition entry_offset (buf : list byte) (pos : Z) : Z :=
  let p := offset_loc pos in
  block_offset (byte_at buf p) (byte_at buf (p + 1)) (byte_at buf (p + 2))
    (byte_at buf (p + 3)).

(** ** One block *)

(** The world after the message of line 141. *)
Definition block_failure (w : world) : world :=
  with_stderr (stderr w ++ [("Block offset too large" ++ nl)%string]) w.

(** The rest of [convert_block] once the offset has passed the check. *)
Definition block_body (pos x z : Z) (buf : list byte) : M bool :=
  let p := entry_offset buf pos in
  res <- convert_block_records (byte_at buf p) (byte_at buf (p + 1))
           (block_x pos x) (block_z pos z) buf (p + BLOCK_HEADER_SIZE) ;;
  _ <- pad_vert_max ;;
  ret res.

(** The world after the padding step, line 163. *)
Definition leave_block (w : world) : world :=
  with_vid {| vert_max := ulong (vert_max (vid w) + 1);
              prev_vert_max := prev_vert_max (vid w) |} w.

(** The header of the block at [pos]: its counts, and where its records
    start. *)
Definition num_polys_at (buf : list byte) (pos : Z) : nat :=
  Z.to_nat (byte_at buf (entry_offset buf pos)).
Definition num_verts_at (buf : list byte) (pos : Z) : nat :=
  Z.to_nat (byte_at buf (entry_offset buf pos + 1)).
Definition records_at (buf : list byte) (pos : Z) : Z :=
  entry_offset buf pos + BLOCK_HEADER_SIZE.

(** ** The maximum of a block *)

(** The global indices the [n] triangle records from [p] on refer to. *)
Fixpoint block_refs (pvm : Z) (buf : list byte) (p : Z) (n : nat) : list Z :=
  match n with
  | O => []
  | S n' =>
      [global_index pvm buf p 0; global_index pvm buf p 1; global_index pvm buf p 2]
      ++ block_refs pvm buf (p + POLYGON_SIZE) n'
  end.

(** [m] is the greatest element of [l]. *)
Definition is_max_of (m : Z) (l : list Z) : Prop :=
  In m l /\ forall x, In x l -> x <= m.

(** ** The history of the vertex index data *)

(** [a] is at most [b] in both fields. *)
Definition vid_le (a b : VertexIndexData) : Prop :=
  vert_max a <= vert_max b /\ prev_vert_max a <= prev_vert_max b.

(** The values the structure has held, newest first. *)
Definition history (w : world) : list VertexIndexData := vid w :: vid_log w.

(** Every value is at least the one before it (the list is newest first). *)
Fixpoint ascending (l : list VertexIndexData) : Prop :=
  match l with
  | a :: (b :: _) as t => vid_le b a /\ ascending t
  | _ => True
  end.

(** A value of the structure in a run whose [vert_max] is at most [B]. *)
Definition state_ok (B : Z) (v : VertexIndexData) : Prop :=
  1 <= prev_vert_max v <= vert_max v /\ vert_max v <= B.

(** The invariant of a run, between blocks. *)
Definition run_inv (B : Z) (w : world) : Prop :=
  ascending (history w) /\ Forall (state_ok B) (history w).

(** Inside a block whose base is at most [B0]. *)
Definition blk_inv (B0 : Z) (w : world) : Prop :=
  run_inv (B0 + 255) w /\ prev_vert_max (vid w) <= B0.

(** [w'] has the vertex index data of [w], and its history. *)
Definition same_vid (w w' : world) : Prop :=
  vid w' = vid w /\ vid_log w' = vid_log w.

(** Inside a block entered with [vert_max] at [base]: [prev_vert_max] stays
    at [base] and [vert_max] within 255 of it. *)
Definition blk_bound (base : Z) (w : world) : Prop :=
  prev_vert_max (vid w) = base /\ base <= vert_max (vid w) <= base + 255.

(** The value of line 218. *)
Definition initial_vid : VertexIndexData := {| vert_max := 1; prev_vert_max := 1 |}.

(** The run stopped before [vert_idx_data] was initialised. *)
Definition stopped_early (w w' : world) : Prop :=
  same_vid w w' /\ out w' = out w /\ exists msg, stderr w' = stderr w ++ [msg].

(** The world after a successful [fseek] to [off]. *)
Definition seek_to (off : Z) (w : world) : world :=
  with_inp {| content := content (inp w); fpos := off;
              seekable := seekable (inp w);
              faulty := faulty (inp w); eof := false |} w.

(** The world in which the loop of [convert_to_obj] starts, line 227: after
    the seek to segment [start], the allocation and line 218. *)
Definition run_start (start : Z) (w : world) : world :=
  {| vid := initial_vid; vid_log := []; out := out w;
     inp := {| content := content (inp w); fpos := start * SEGMENT_SIZE;
               seekable := seekable (inp w);
               faulty := faulty (inp w); eof := false |};
     stderr := stderr w; heap_ok := heap_ok w |}.

(** ** What the records of a block leave alone *)

(** [w'] has the input, the error stream and the heap of [w]. *)
Definition same_env (w w' : world) : Prop :=
  inp w' = inp w /\ stderr w' = stderr w /\ heap_ok w' = heap_ok w.

(** ** Concrete inputs *)

(** The byte of value [z mod 256]. *)
Definition byte_of_Z (z : Z) : byte :=
  match Byte.of_N (Z.to_N (z mod 256)) with Some b => b | None => x00 end.

(** [buf] with the bytes [l] stored from index [off] on. *)
Definition put (l : list Z) (off : Z) (buf : list byte) : list byte :=
  firstn (Z.to_nat off) buf ++ map byte_of_Z l
    ++ skipn (Z.to_nat off + List.length l) buf.

(** A segment of zero bytes: sixteen empty blocks. *)
Definition zero_segment : list byte := repeat x00 (Z.to_nat SEGMENT_SIZE).

(** One segment whose block 0 lies at offset 68 and holds one triangle with
    the local indices 0, 1, 2 and three vertices, (1, 2, 3), (1000, 65535,
    2048) and (2049, 32768, 65534) as raw 16-bit values; the other fifteen
    table entries are 0 and find an empty header at the start of the
    segment. *)
Definition minimal_segment : list byte :=
  put [68; 0; 0; 0] 4
    (put ([1; 3; 0; 0]
          ++ [0; 1; 2; 0; 0; 0; 0; 0; 0; 0; 0; 0; 0; 0; 0; 0]
          ++ [1; 0; 2; 0; 3; 0; 0; 0]
          ++ [0xE8; 3; 0xFF; 0xFF; 0; 8; 0; 0]
          ++ [1; 8; 0; 0x80; 0xFE; 0xFF; 0; 0]) 68 zero_segment).

(** A segment whose first table entry is 2305. *)
Definition segment_2305 : list byte := put [1; 9; 0; 0] 4 zero_segment.


(** A segment whose first table entry is 34560, the largest offset the check
    lets through, with a header there that announces [np] triangles and [nv]
    vertices. *)
Definition segment_last (np nv : Z) : list byte :=
  put [0; 0x87; 0; 0] 4 (put [np; nv; 0; 0] 34560 zero_segment).

(** The world at the start of the first block of a run on [file], with an
    output device that takes [quota] characters. *)
Definition run_world (file : list byte) (quota : nat) : world :=
  {| vid := initial_vid; vid_log := [];
     out := {| text := ""; room := quota; error := false |};
     inp := {| content := file; fpos := 0; seekable := true;
               faulty := false; eof := false |};
     stderr := []; heap_ok := true |}.

(** A world for one block taken alone: no input is read. *)
Definition block_world (quota : nat) : world := run_world [] quota.

(** The value a computation returns, if it returns. *)
Definition result {A} (o : outcome A) : option A :=
  match o with Ret a _ => Some a | Undef _ _ => None end.

(** The index of the read outside the buffer at which a computation stops,
    if it stops there. *)
Definition undefined_at {A} (o : outcome A) : option Z :=
  match o with Ret _ _ => None | Undef i _ => Some i end.

(** A table entry within the bound that points at a header of two zero
    counts. *)
Definition empty_block (seg : list byte) (pos : Z) : Prop :=
  le32_at seg (4 + pos * 4) <= BLOCK_OFFSET_MAX
  /\ byte_at seg (le32_at seg (4 + pos * 4)) = 0
  /\ byte_at seg (le32_at seg (4 + pos * 4) + 1) = 0.

(** The raw 16-bit little-endian value at [p]. *)
Definition raw16 (seg : list byte) (p : Z) : Z :=
  byte_at seg p + 256 * byte_at seg (p + 1).

(** The line of the vertex record at [p] of a block at the world origin. *)
Definition scaled_vertex (seg : list byte) (p : Z) : string :=
  ("v " ++ fixed3 (limit_within_bounds (raw16 seg p))
     ++ " " ++ fixed3 (limit_within_bounds (raw16 seg (p + 2)))
     ++ " " ++ fixed3 (limit_within_bounds (raw16 seg (p + 4))) ++ nl)%string.

(** A segment whose block 0, at offset [off], holds one triangle with the
    local indices 0, 1, 2 followed by three vertex records, and whose other
    fifteen blocks are empty. *)
Definition minimal_layout (seg : list byte) (off : Z) : Prop :=
  Z.of_nat (List.length seg) = SEGMENT_SIZE
  /\ le32_at seg 4 = off /\ off <= BLOCK_OFFSET_MAX
  /\ byte_at seg off = 1 /\ byte_at seg (off + 1) = 3
  /\ byte_at seg (off + 4) = 0 /\ byte_at seg (off + 5) = 1
  /\ byte_at seg (off + 6) = 2
  /\ forall pos, 1 <= pos < 16 -> empty_block seg pos.

(** The output expected of a segment with the minimal layout. *)
Definition minimal_output (seg : list byte) (off : Z) : string :=
  ("f 1 2 3" ++ nl ++ scaled_vertex seg (off + 20) ++ scaled_vertex seg (off + 28)
     ++ scaled_vertex seg (off + 36))%string.

(** * The command line: [parse_uint], [parse_segment_index], [main] *)

(** The values of [errno] the program tells apart. *)
Inductive errno_t : Type := ENONE | EINVAL | ERANGE.

Definition ULONG_MAX : Z := 2 ^ 64 - 1.

(** [isspace] in the C locale: space, and the controls from tab to carriage
    return. *)
Definition is_space (c : ascii) : bool :=
  let n := nat_of_ascii c in
  (n =? 32)%nat || ((9 <=? n)%nat && (n <=? 13)%nat).

(** The value of a decimal digit character. *)
Definition digit_of (c : ascii) : option Z :=
  let n := Z.of_nat (nat_of_ascii c) in
  if (48 <=? n) && (n <=? 57) then Some (n - 48) else None.

Fixpoint skip_spaces (s : string) : string :=
  match s with
  | String c s' => if is_space c then skip_spaces s' else s
  | EmptyString => s
  end.

(** The digits at the head of [s], accumulated on [acc]; [n] counts them. *)
Fixpoint read_digits (s : string) (acc : Z) (n : nat) : Z * nat :=
  match s with
  | String c s' =>
      match digit_of c with
      | Some d => read_digits s' (10 * acc + d) (S n)
      | None => (acc, n)
      end
  | EmptyString => (acc, n)
  end.

(** [strtoul(str, &end_ptr, 10)] as the C standard describes it: white
    space, an optional sign, decimal digits.  The result is the value,
    whether [end_ptr] has moved ([end_ptr != str]: some digits were
    converted), and whether [errno] was set to [ERANGE] (the digits denote
    more than [ULONG_MAX], which is returned then); a minus sign negates in
    [unsigned long int]. *)
Definition strtoul (str : string) : Z * bool * bool :=
  let s1 := skip_spaces str in
  let '(neg, s2) :=
    match s1 with
    | String "-" r => (true, r)
    | String "+" r => (false, r)
    | _ => (false, s1)
    end in
  let '(v, n) := read_digits s2 0 0 in
  match n with
  | O => (0, false, false)
  | S _ =>
      if v >? ULONG_MAX then (ULONG_MAX, true, true)
      else (if neg then ulong (- v) else v, true, false)
  end.

(** [parse_uint], lines 44-67: the value returned and the [errno] it leaves
    ([errno] is cleared on entry, so the one on entry does not matter). *)
Definition parse_uint (str : string) (min max : Z) : Z * errno_t :=
  let '(v, moved, range_error) := strtoul str in
  let ret := uint v in
  if range_error then (0, ERANGE)
  else if negb moved then (0, EINVAL)
  else if (ret <? min) || (ret >? max) then (0, ERANGE)
  else (ret, ENONE).

(** What the program finds around it: [strerror], the two [fopen]s (the
    stream, or the text of [strerror(errno)] when the file cannot be
    opened), and whether [malloc] succeeds. *)
Record environment := mkEnv {
  strerror : errno_t -> string;
  fopen_in : string -> IFILE + string;
  fopen_out : string -> OFILE + string;
  env_heap_ok : bool
}.

(** [parse_segment_index], lines 69-79: the index, or the message [die]
    prints. *)
Definition parse_segment_index (env : environment) (str : string) (min max : Z)
    (fail_msg : string) : Z + string :=
  let '(ret, e) := parse_uint str min max in
  match e with
  | ENONE => inl ret
  | _ => inr (fail_msg ++ ": " ++ strerror env e ++ nl)%string
  end.

(** Lines 241-250 of [main]: the segment range, or the message [die]
    prints.  [argv] is the argument vector, [argc] its length; the name of
    an empty vector is printed as the C library prints a null pointer. *)
Definition main_args (env : environment) (argv : list string) : (Z * Z) + string :=
  match argv with
  | _ :: _ :: _ :: rest =>
      let start := SEGMENT_MIN in
      match (match rest with
             | a3 :: _ => parse_segment_index env a3 start SEGMENT_MAX "Bad start segment"
             | [] => inl start
             end) with
      | inr msg => inr msg
      | inl start =>
          match (match rest with
                 | _ :: a4 :: _ =>
                     parse_segment_index env a4 start SEGMENT_MAX "Bad end segment"
                 | _ => inl SEGMENT_MAX
                 end) with
          | inr msg => inr msg
          | inl end_ => inl (start, end_)
          end
      end
  | _ =>
      inr ("Bad arguments: " ++ hd "(null)" argv ++ " <in> <out> [<start>] [<end>]"
             ++ nl)%string
  end.

Inductive exit_status : Type := EXIT_SUCCESS | EXIT_FAILURE.

(** How the process ends: its status, what it has written to [stdout] and
    to [stderr], and the output file as it leaves it, if it has opened it;
    or a read outside the segment buffer. *)
Inductive main_outcome : Type :=
| Exited (status : exit_status) (stdout stderr_ : list string) (file : option OFILE)
| Undefined (idx : Z).

(** The world [convert_to_obj] starts in. *)
Definition start_world (env : environment) (i : IFILE) (o : OFILE) : world :=
  {| vid := {| vert_max := 0; prev_vert_max := 0 |}; vid_log := [];
     out := o; inp := i; stderr := []; heap_ok := env_heap_ok env |}.

(** [main], lines 233-271. *)
Definition main (env : environment) (argv : list string) : main_outcome :=
  match main_args env argv with
  | inr msg => Exited EXIT_FAILURE [] [msg] None
  | inl (start, end_) =>
      match fopen_in env (nth 1 argv ""%string) with
      | inr e =>
          Exited EXIT_FAILURE [] [("Failed to open input file: " ++ e ++ nl)%string] None
      | inl i =>
          match fopen_out env (nth 2 argv ""%string) with
          | inr e =>
              Exited EXIT_FAILURE []
                [("Failed to open output file: " ++ e ++ nl)%string] None
          | inl o =>
              let started :=
                ("Starting conversion of segments " ++ dec start ++ "-" ++ dec end_
                   ++ " to " ++ nth 2 argv "" ++ nl)%string in
              match convert_to_obj start end_ (start_world env i o) with
              | Undef idx _ => Undefined idx
              | Ret res w =>
                  if res
                  then Exited EXIT_SUCCESS
                         [started; ("Conversion successful" ++ nl)%string]
                         (stderr w) (Some (out w))
                  else Exited EXIT_FAILURE [started]
                         (stderr w ++ [("Conversion failed" ++ nl)%string])
                         (Some (out w))
              end
          end
      end
  end.

(** * The loop of [convert_to_obj], literally *)

(** [for (i = start; res && i != end; ++i, ++j)] with its test on [i],
    bounded by [fuel]: [None] when the fuel runs out. *)
Fixpoint segments_for (fuel : nat) (i end_ j : Z) (res : bool) : M (option bool) :=
  if res && negb (i =? end_) then
    match fuel with
    | O => ret None
    | S fuel' =>
        r <- convert_segment j ;;
        segments_for fuel' (uint (i + 1)) end_ (uint (j + 1)) r
    end
  else ret (Some res).

(** The grid index of the first segment of a run, line 223. *)
Definition first_column (start end_ : Z) : Z :=
  if negb (start / SEGMENTS_PER_ROW =? end_ / SEGMENTS_PER_ROW)
  then start mod SEGMENTS_PER_ROW else 0.

(** * Readings *)

(** The signed reading of a 16-bit value. *)
Definition signed16 (v : Z) : Z := if v <? 2 ^ 15 then v else v - 2 ^ 16.

(** The text of the digits [ds], most significant first, and their value. *)
Definition numeral (ds : list Z) : string :=
  fold_right (fun d s => (digit d ++ s)%string) ""%string ds.

Definition numeral_value (ds : list Z) : Z :=
  fold_left (fun a d => 10 * a + d) ds 0.

(** A sign in front of a numeral: none, plus or minus. *)
Inductive sign : Type := NoSign | Plus | Minus.

Definition sign_text (sg : sign) : string :=
  match sg with NoSign => "" | Plus => "+" | Minus => "-" end.

Fixpoint all_space (s : string) : bool :=
  match s with
  | String c s' => is_space c && all_space s'
  | EmptyString => true
  end.

(** [s] does not go on with a digit. *)
Definition no_digit_ahead (s : string) : Prop :=
  match s with String c _ => digit_of c = None | EmptyString => True end.

(** [w'] has the output stream of [w] after one more write. *)
Definition out_extends (w w' : world) : Prop :=
  exists s, out w' = write s (out w).

(** [w'] has the messages of [w] on [stderr], and possibly more. *)
Definition stderr_extends (w w' : world) : Prop :=
  exists l, stderr w' = stderr w ++ l.

(** [w'] has the file of [w] behind its input stream, and its heap. *)
Definition same_file (w w' : world) : Prop :=
  content (inp w') = content (inp w) /\ seekable (inp w') = seekable (inp w)
  /\ heap_ok w' = heap_ok w.

(** A read at [idx] that leaves the buffer while records are scanned upwards
    from [p]: it is outside, not before [p], and no further beyond the end
    than one step of the scan. *)
Definition stray (buf : list byte) (p idx : Z) : Prop :=
  ~ in_buf buf idx /\ p <= idx
  /\ idx <= Z.max p (Z.of_nat (List.length buf) + 13).

(** A segment whose first table entry is 34553, with a header there that
    announces 255 triangles: the record that starts at 36861 ends on the last
    byte of the segment. *)
Definition segment_stray : list byte :=
  put [0xF9; 0x86; 0; 0] 4 (put [255; 0; 0; 0] 34553 zero_segment).

(** An environment with one input file, named [name], and room for [quota]
    characters in any output file. *)
Definition one_file_env (name : string) (file : list byte) (quota : nat)
  : environment :=
  {| strerror := fun e => match e with
                          | ENONE => "Success"
                          | EINVAL => "Invalid argument"
                          | ERANGE => "Numerical result out of range"
                          end%string;
     fopen_in := fun n => if String.eqb n name
                          then inl {| content := file; fpos := 0; seekable := true;
                                      faulty := false; eof := false |}
                          else inr "No such file or directory"%string;
     fopen_out := fun _ => inl {| text := ""; room := quota; error := false |};
     env_heap_ok := true |}.

(** Why a run returns 0: the four conditions the code reports on [stderr]
    (a failed read with or without the end of the file behind it), and a
    failed write, which [convert_polygon] and [convert_vertex] find with
    [ferror] and report to nobody. *)
Inductive failure : Type :=
| SeekFailed | OutOfMemory | ReadFailed (at_end : bool) | BlockOffsetTooLarge
| WriteFailed.

(** What the code writes to [stderr] for each, lines 207, 213, 180-182 and
    141. *)
Definition diagnostics (f : failure) : list string :=
  match f with
  | SeekFailed => [("Seek failed" ++ nl)%string]
  | OutOfMemory => [("Out of memory" ++ nl)%string]
  | ReadFailed at_end =>
      ("Read failed" ++ nl)%string
      :: (if at_end then [("EOF was reached" ++ nl)%string] else [])
  | BlockOffsetTooLarge => [("Block offset too large" ++ nl)%string]
  | WriteFailed => []
  end.



(** * Properties *)

(** ** Machine integers *)

Lemma uint_small x : 0 <= x < 2 ^ 32 -> uint x = x.
Proof. intros H. unfold uint. now apply Z.mod_small. Qed.

Lemma ulong_small x : 0 <= x < 2 ^ 64 -> ulong x = x.
Proof. intros H. unfold ulong. now apply Z.mod_small. Qed.

Lemma sint_small x : - 2 ^ 31 <= x < 2 ^ 31 -> sint x = x.
Proof. intros H. unfold sint. rewrite Z.mod_small; lia. Qed.

Lemma uint_range x : 0 <= uint x < 2 ^ 32.
Proof. unfold uint. apply Z.mod_pos_bound. lia. Qed.

Lemma ulong_range x : 0 <= ulong x < 2 ^ 64.
Proof. unfold ulong. apply Z.mod_pos_bound. lia. Qed.

Lemma byte_val_range b : 0 <= byte_val b <= 255.
Proof.
  unfold byte_val. pose proof (Byte.to_N_bounded b). lia.
Qed.

(** Bits that do not overlap add up. *)
Lemma lor_disjoint a c n :
  0 <= n -> 0 <= a < 2 ^ n -> Z.lor a (c * 2 ^ n) = a + c * 2 ^ n.
Proof.
  intros Hn Ha.
  assert (Hl : Z.land a (c * 2 ^ n) = 0).
  { apply Z.bits_inj'. intros m Hm.
    rewrite Z.land_spec, Z.bits_0.
    destruct (Z.lt_ge_cases m n) as [Hlt | Hge].
    - rewrite <- Z.shiftl_mul_pow2 by assumption.
      rewrite Z.shiftl_spec_low by assumption. apply andb_false_r.
    - destruct (Z.eq_dec a 0) as [-> | Hnz].
      + now rewrite Z.bits_0.
      + rewrite Z.bits_above_log2; [reflexivity | lia |].
        apply Z.log2_lt_pow2; [lia |].
        apply Z.lt_le_trans with (2 ^ n); [lia |].
        apply Z.pow_le_mono_r; lia. }
  rewrite (Z.add_nocarry_lxor _ _ Hl). symmetry. now apply Z.lxor_lor.
Qed.

Lemma shiftl_byte b n : 0 <= n -> Z.shiftl b n = b * 2 ^ n.
Proof. intros. now apply Z.shiftl_mul_pow2. Qed.

(** The 16-bit little-endian value of two bytes. *)
Lemma le16_value b0 b1 :
  0 <= b0 <= 255 -> 0 <= b1 <= 255 -> le16 b0 b1 = b0 + 256 * b1.
Proof.
  intros H0 H1. unfold le16.
  rewrite shiftl_byte by lia.
  rewrite (sint_small (b1 * 2 ^ 8)) by lia.
  rewrite lor_disjoint by lia.
  rewrite sint_small by lia. rewrite uint_small by lia. lia.
Qed.

(** ** Fold into bounds *)

Lemma limit_within_bounds_low v :
  v <= BLOCK_BOUNDS -> limit_within_bounds v = v.
Proof.
  intros H. unfold limit_within_bounds.
  destruct (Z.leb_spec v BLOCK_BOUNDS); [reflexivity | lia].
Qed.

Lemma limit_within_bounds_high v :
  BLOCK_BOUNDS < v <= 65535 -> limit_within_bounds v = 65536 - v.
Proof.
  intros H. unfold limit_within_bounds.
  assert (HB : BLOCK_BOUNDS = 2048) by reflexivity.
  destruct (Z.leb_spec v BLOCK_BOUNDS); [lia |].
  unfold uint_not. rewrite Z.lnot_eq_pred_opp.
  assert (E1 : uint (- v - 1) = 2 ^ 32 - 1 - v).
  { unfold uint. symmetry. apply (Z.mod_unique_pos _ _ (-1)); lia. }
  rewrite E1. rewrite uint_small by lia.
  change 0xFFFF with (Z.ones 16). rewrite Z.land_ones by lia.
  symmetry. apply (Z.mod_unique_pos _ _ 65535); lia.
Qed.

Lemma limit_within_bounds_range v :
  0 <= v <= 65535 -> 0 <= limit_within_bounds v <= 65535.
Proof.
  intros H. assert (HB : BLOCK_BOUNDS = 2048) by reflexivity.
  destruct (Z.le_gt_cases v BLOCK_BOUNDS).
  - rewrite limit_within_bounds_low; lia.
  - rewrite limit_within_bounds_high; lia.
Qed.

(** C1. For a raw 16-bit value [v], the fold returns [v] itself up to
    [BLOCK_BOUNDS] = 2048, the boundary included, and above it the two's
    complement negation of [v] masked to 16 bits, [(~v + 1) & 0xFFFF], which
    is [65536 - v]; 65535 folds to 1. *)
Theorem limit_within_bounds_spec (v : Z) :
  0 <= v <= 65535 ->
  BLOCK_BOUNDS = 2048 /\
  (v <= 2048 -> limit_within_bounds v = v) /\
  (v > 2048 ->
   limit_within_bounds v = Z.land (Z.lnot v + 1) 0xFFFF /\
   limit_within_bounds v = 65536 - v) /\
  limit_within_bounds 65535 = 1 /\
  limit_within_bounds 2048 = 2048.
Proof.
  intros H. split; [reflexivity |].
  split; [| split; [| split; reflexivity]].
  - intros Hv. apply limit_within_bounds_low. change BLOCK_BOUNDS with 2048. lia.
  - intros Hv.
    assert (E : limit_within_bounds v = 65536 - v).
    { apply limit_within_bounds_high. change BLOCK_BOUNDS with 2048. lia. }
    split; [| exact E]. rewrite E.
    rewrite Z.succ_lnot.
    change 0xFFFF with (Z.ones 16). rewrite Z.land_ones by lia.
    apply (Z.mod_unique_pos _ _ (-1)); lia.
Qed.

Lemma limit_within_bounds_spec_witness :
  limit_within_bounds 40000 = Z.land (Z.lnot 40000 + 1) 0xFFFF
  /\ limit_within_bounds 40000 = 25536.
Proof.
  destruct (limit_within_bounds_spec 40000) as (_ & _ & Hhi & _); [lia |].
  apply Hhi. lia.
Defined.

(** ** Text and the output stream *)

Lemma append_nil_r s : (s ++ "")%string = s.
Proof. induction s as [| c s IH]; simpl; [reflexivity | now rewrite IH]. Qed.

Lemma append_assoc s1 s2 s3 : ((s1 ++ s2) ++ s3)%string = (s1 ++ (s2 ++ s3))%string.
Proof. induction s1 as [| c s1 IH]; simpl; [reflexivity | now rewrite IH]. Qed.

Lemma length_append s1 s2 :
  String.length (s1 ++ s2) = (String.length s1 + String.length s2)%nat.
Proof. induction s1 as [| c s1 IH]; simpl; [reflexivity | now rewrite IH]. Qed.

Lemma take_all n s : (String.length s <= n)%nat -> take n s = s.
Proof.
  revert n. induction s as [| c s IH]; intros [| n] H; simpl in *;
    try reflexivity; try lia.
  rewrite IH; [reflexivity | lia].
Qed.

Lemma take_append n s1 s2 :
  take n (s1 ++ s2) = (take n s1 ++ take (n - String.length s1) s2)%string.
Proof.
  revert n. induction s1 as [| c s1 IH]; intros n; simpl.
  - rewrite Nat.sub_0_r. now destruct n.
  - destruct n as [| n]; simpl; [reflexivity | now rewrite IH].
Qed.

Lemma write_write s1 s2 f : write s2 (write s1 f) = write (s1 ++ s2) f.
Proof.
  unfold write; simpl. f_equal.
  - rewrite append_assoc, take_append. reflexivity.
  - rewrite length_append. lia.
  - rewrite length_append, <- orb_assoc. f_equal.
    destruct (Nat.ltb_spec (room f) (String.length s1));
      destruct (Nat.ltb_spec (room f - String.length s1) (String.length s2));
      destruct (Nat.ltb_spec (room f) (String.length s1 + String.length s2));
      simpl; try reflexivity; lia.
Qed.

Lemma write_empty f : write "" f = f.
Proof.
  destruct f as [t r e]. unfold write; simpl.
  rewrite Nat.sub_0_r, orb_false_r. f_equal.
  destruct r; simpl; apply append_nil_r.
Qed.

(** The indicator is sticky. *)
Lemma write_error_sticky s f : error (write s f) = false -> error f = false.
Proof. unfold write; simpl. now intros [H _]%orb_false_iff. Qed.

(** A write that leaves the indicator clear has put all of [s]. *)
Lemma write_clean s f :
  error (write s f) = false -> text (write s f) = (text f ++ s)%string.
Proof.
  unfold write; simpl. intros [_ H]%orb_false_iff.
  apply Nat.ltb_ge in H. now rewrite take_all.
Qed.

(** A write for which the device has room. *)
Lemma write_fits s f :
  (String.length s <= room f)%nat ->
  write s f = {| text := text f ++ s; room := room f - String.length s;
                 error := error f |}.
Proof.
  intros H. unfold write. rewrite take_all by assumption.
  f_equal. apply Nat.ltb_ge in H. rewrite H. apply orb_false_r.
Qed.

(** ** Reads *)

Lemma byte_at_range buf i : 0 <= byte_at buf i <= 255.
Proof. apply byte_val_range. Qed.

Lemma rd_in buf i w : in_buf buf i -> rd buf i w = Ret (byte_at buf i) w.
Proof.
  intros [H0 H1]. unfold rd.
  destruct (Z.leb_spec 0 i); [| lia].
  destruct (Z.ltb_spec i (Z.of_nat (List.length buf))); [| lia].
  reflexivity.
Qed.

Lemma rd_out buf i w : ~ in_buf buf i -> rd buf i w = Undef i w.
Proof.
  intros H. unfold rd, in_buf in *.
  destruct (Z.leb_spec 0 i); destruct (Z.ltb_spec i (Z.of_nat (List.length buf)));
    simpl; try reflexivity; lia.
Qed.

Lemma in_buf_dec buf i : {in_buf buf i} + {~ in_buf buf i}.
Proof.
  unfold in_buf.
  destruct (Z_le_dec 0 i); destruct (Z_lt_dec i (Z.of_nat (List.length buf)));
    (left; lia) || (right; lia).
Qed.

Lemma bind_rd_in {B} buf i (k : Z -> M B) w :
  in_buf buf i -> (x <- rd buf i ;; k x) w = k (byte_at buf i) w.
Proof. intros H. unfold bind. now rewrite rd_in. Qed.

Lemma bind_rd_out {B} buf i (k : Z -> M B) w :
  ~ in_buf buf i -> (x <- rd buf i ;; k x) w = Undef i w.
Proof. intros H. unfold bind. now rewrite rd_out. Qed.

(** ** One vertex record *)

Lemma convert_vertex_in x z buf p w :
  in_buf buf p -> in_buf buf (p + 5) ->
  convert_vertex x z buf p w =
  Ret (negb (error (out (vertex_world x z buf p w)))) (vertex_world x z buf p w).
Proof.
  intros H0 H5. unfold convert_vertex.
  assert (in_buf buf (p + 1) /\ in_buf buf (p + 2) /\ in_buf buf (p + 3)
          /\ in_buf buf (p + 4)) as (H1 & H2 & H3 & H4)
    by (unfold in_buf in *; lia).
  rewrite bind_rd_in by assumption. rewrite bind_rd_in by assumption.
  rewrite bind_rd_in by assumption. rewrite bind_rd_in by assumption.
  rewrite bind_rd_in by assumption. rewrite bind_rd_in by assumption.
  unfold vertex_world, vertex_text, le16_at.
  replace (p + 2 + 1) with (p + 3) by lia.
  replace (p + 4 + 1) with (p + 5) by lia.
  reflexivity.
Qed.

Lemma convert_vertex_ret x z buf p w r w' :
  convert_vertex x z buf p w = Ret r w' -> in_buf buf p /\ in_buf buf (p + 5).
Proof.
  intros H. unfold convert_vertex in H.
  destruct (in_buf_dec buf p) as [H0 | H0];
    [rewrite bind_rd_in in H by assumption
    | rewrite bind_rd_out in H by assumption; discriminate].
  destruct (in_buf_dec buf (p + 1)) as [H1 | H1];
    [rewrite bind_rd_in in H by assumption
    | rewrite bind_rd_out in H by assumption; discriminate].
  destruct (in_buf_dec buf (p + 2)) as [H2 | H2];
    [rewrite bind_rd_in in H by assumption
    | rewrite bind_rd_out in H by assumption; discriminate].
  destruct (in_buf_dec buf (p + 3)) as [H3 | H3];
    [rewrite bind_rd_in in H by assumption
    | rewrite bind_rd_out in H by assumption; discriminate].
  destruct (in_buf_dec buf (p + 4)) as [H4 | H4];
    [rewrite bind_rd_in in H by assumption
    | rewrite bind_rd_out in H by assumption; discriminate].
  destruct (in_buf_dec buf (p + 5)) as [H5 | H5];
    [rewrite bind_rd_in in H by assumption
    | rewrite bind_rd_out in H by assumption; discriminate].
  now split.
Qed.

Lemma vertex_world_error x z buf p w :
  error (out (vertex_world x z buf p w)) = false -> error (out w) = false.
Proof. apply write_error_sticky. Qed.

(** ** One triangle record *)

Lemma Ret_inj {A} (a a' : A) (w w' : world) :
  Ret a w = Ret a' w' -> a = a' /\ w = w'.
Proof. intros H. now injection H. Qed.

Lemma with_out_vid f w : same_vid w (with_out f w).
Proof. now split. Qed.

Lemma with_out_env f w : same_env w (with_out f w).
Proof. now repeat split. Qed.

Lemma out_with_out f w : out (with_out f w) = f.
Proof. reflexivity. Qed.

Lemma vid_with_out f w : vid (with_out f w) = vid w.
Proof. reflexivity. Qed.

Lemma same_env_refl w : same_env w w.
Proof. now repeat split. Qed.

Lemma same_env_trans w1 w2 w3 : same_env w1 w2 -> same_env w2 w3 -> same_env w1 w3.
Proof. intros (H1 & H2 & H3) (H4 & H5 & H6). repeat split; congruence. Qed.

Lemma index_step_out buf p i w :
  out (index_step buf p i w)
  = write (" " ++ dec (global_index (prev_vert_max (vid w)) buf p i)) (out w).
Proof. unfold index_step, global_index. simpl. now destruct (_ >? _). Qed.

Lemma index_step_prev buf p i w :
  prev_vert_max (vid (index_step buf p i w)) = prev_vert_max (vid w).
Proof. unfold index_step. simpl. now destruct (_ >? _). Qed.

Lemma index_step_vert_max buf p i w :
  vert_max (vid (index_step buf p i w))
  = bump (vert_max (vid w)) (global_index (prev_vert_max (vid w)) buf p i).
Proof. unfold index_step, bump, global_index. simpl. now destruct (_ >? _). Qed.

Lemma index_step_frame buf p i w :
  inp (index_step buf p i w) = inp w
  /\ stderr (index_step buf p i w) = stderr w
  /\ heap_ok (index_step buf p i w) = heap_ok w.
Proof. unfold index_step. simpl. now destruct (_ >? _). Qed.

Lemma polygon_world_out buf p w :
  out (polygon_world buf p w)
  = write (face_text (prev_vert_max (vid w)) buf p) (out w).
Proof.
  unfold polygon_world, face_text. cbv zeta.
  rewrite out_with_out, !index_step_out, !index_step_prev.
  rewrite out_with_out, vid_with_out.
  now rewrite !write_write.
Qed.

Lemma polygon_world_prev buf p w :
  prev_vert_max (vid (polygon_world buf p w)) = prev_vert_max (vid w).
Proof.
  unfold polygon_world. cbv zeta.
  now rewrite vid_with_out, !index_step_prev, vid_with_out.
Qed.

Lemma polygon_world_vert_max buf p w :
  vert_max (vid (polygon_world buf p w))
  = let pvm := prev_vert_max (vid w) in
    bump (bump (bump (vert_max (vid w)) (global_index pvm buf p 0))
               (global_index pvm buf p 1))
         (global_index pvm buf p 2).
Proof.
  unfold polygon_world. cbv zeta.
  now rewrite vid_with_out, !index_step_vert_max, !index_step_prev, vid_with_out.
Qed.

Lemma polygon_world_frame buf p w :
  inp (polygon_world buf p w) = inp w
  /\ stderr (polygon_world buf p w) = stderr w
  /\ heap_ok (polygon_world buf p w) = heap_ok w.
Proof.
  unfold polygon_world. cbv zeta.
  set (w0 := with_out (write "f" (out w)) w).
  change (same_env w (with_out (write nl (out (index_step buf p 2 (index_step buf p 1
            (index_step buf p 0 w0))))) (index_step buf p 2 (index_step buf p 1
            (index_step buf p 0 w0))))).
  apply (same_env_trans w w0); [apply with_out_env |].
  eapply same_env_trans; [apply (index_step_frame buf p 0) |].
  eapply same_env_trans; [apply (index_step_frame buf p 1) |].
  eapply same_env_trans; [apply (index_step_frame buf p 2) |].
  apply with_out_env.
Qed.

Lemma polygon_world_error buf p w :
  error (out (polygon_world buf p w)) = false -> error (out w) = false.
Proof. rewrite polygon_world_out. apply write_error_sticky. Qed.

Lemma polygon_index_in buf p i n w :
  in_buf buf (p + i) ->
  polygon_indices (S n) i buf p w
  = polygon_indices n (i + 1) buf p (index_step buf p i w).
Proof.
  intros H. cbn [polygon_indices]. unfold bind at 1. unfold get_vid at 1.
  rewrite bind_rd_in by assumption.
  unfold index_step. cbv zeta. unfold bind, fwrite, get_vid.
  cbn [vid with_out].
  destruct (_ >? _); reflexivity.
Qed.

Lemma convert_polygon_in buf p w :
  in_buf buf p -> in_buf buf (p + 2) ->
  convert_polygon buf p w =
  Ret (negb (error (out (polygon_world buf p w)))) (polygon_world buf p w).
Proof.
  intros H0 H2. unfold convert_polygon.
  assert (H1 : in_buf buf (p + 1)) by (unfold in_buf in *; lia).
  change (Z.to_nat VERTICES_PER_POLYGON) with 3%nat.
  unfold bind at 1. unfold fwrite at 1. unfold bind at 1.
  rewrite polygon_index_in by (now rewrite Z.add_0_r).
  rewrite polygon_index_in by assumption.
  rewrite polygon_index_in by assumption.
  reflexivity.
Qed.

Lemma polygon_index_ret buf p i n w (a : unit) w' :
  polygon_indices (S n) i buf p w = Ret a w' -> in_buf buf (p + i).
Proof.
  intros H. destruct (in_buf_dec buf (p + i)) as [Hi | Hi]; [assumption |].
  cbn [polygon_indices] in H. unfold bind at 1 in H. unfold get_vid at 1 in H.
  rewrite bind_rd_out in H by assumption. discriminate.
Qed.

Lemma convert_polygon_ret buf p w r w' :
  convert_polygon buf p w = Ret r w' -> in_buf buf p /\ in_buf buf (p + 2).
Proof.
  intros H. unfold convert_polygon in H.
  change (Z.to_nat VERTICES_PER_POLYGON) with 3%nat in H.
  unfold bind at 1 in H. unfold fwrite at 1 in H. unfold bind at 1 in H.
  destruct (polygon_indices 3 0 buf p _) as [a w1 | i w1] eqn:E; [| discriminate].
  pose proof (polygon_index_ret _ _ _ _ _ _ _ E) as H0.
  rewrite polygon_index_in in E by assumption.
  pose proof (polygon_index_ret _ _ _ _ _ _ _ E) as H1.
  rewrite polygon_index_in in E by assumption.
  pose proof (polygon_index_ret _ _ _ _ _ _ _ E) as H2.
  rewrite Z.add_0_r in H0. split; assumption.
Qed.

(** ** The record loops of a block *)

Lemma polys_world_prev n buf p w :
  prev_vert_max (vid (polys_world n buf p w)) = prev_vert_max (vid w).
Proof.
  revert p w. induction n as [| n IH]; intros p w; simpl; [reflexivity |].
  now rewrite IH, polygon_world_prev.
Qed.

Lemma polys_world_out n buf p w :
  out (polys_world n buf p w)
  = write (faces_text (prev_vert_max (vid w)) buf p n) (out w).
Proof.
  revert p w. induction n as [| n IH]; intros p w; simpl.
  - now rewrite write_empty.
  - now rewrite IH, polygon_world_prev, polygon_world_out, write_write.
Qed.

Lemma polys_world_frame n buf p w :
  inp (polys_world n buf p w) = inp w
  /\ stderr (polys_world n buf p w) = stderr w
  /\ heap_ok (polys_world n buf p w) = heap_ok w.
Proof.
  revert p w. induction n as [| n IH]; intros p w; simpl; [now split |].
  destruct (IH (p + POLYGON_SIZE) (polygon_world buf p w)) as (-> & -> & ->).
  apply polygon_world_frame.
Qed.

Lemma verts_world_out n x z buf p w :
  out (verts_world n x z buf p w) = write (verts_text x z buf p n) (out w).
Proof.
  revert p w. induction n as [| n IH]; intros p w; simpl.
  - now rewrite write_empty.
  - rewrite IH. unfold vertex_world at 1. cbn [out with_out].
    now rewrite write_write.
Qed.

Lemma verts_world_vid n x z buf p w :
  vid (verts_world n x z buf p w) = vid w
  /\ vid_log (verts_world n x z buf p w) = vid_log w.
Proof.
  revert p w. induction n as [| n IH]; intros p w; simpl; [now split |].
  destruct (IH (p + VERTEX_SIZE) (vertex_world x z buf p w)) as (-> & ->).
  now split.
Qed.

Lemma verts_world_frame n x z buf p w :
  inp (verts_world n x z buf p w) = inp w
  /\ stderr (verts_world n x z buf p w) = stderr w
  /\ heap_ok (verts_world n x z buf p w) = heap_ok w.
Proof.
  revert p w. induction n as [| n IH]; intros p w; simpl; [now split |].
  destruct (IH (p + VERTEX_SIZE) (vertex_world x z buf p w)) as (-> & -> & ->).
  now split.
Qed.

Lemma polygons_loop_false n buf p w :
  polygons_loop n false buf p w = Ret (false, p) w.
Proof. now destruct n. Qed.

Lemma vertices_loop_false n x z buf p w :
  vertices_loop n false x z buf p w = Ret (false, p) w.
Proof. now destruct n. Qed.

(** A polygon loop that ends with [res] set has converted all [n] records. *)
Lemma polygons_loop_ret n buf p w p' w' :
  polygons_loop n true buf p w = Ret (true, p') w' ->
  w' = polys_world n buf p w
  /\ p' = p + POLYGON_SIZE * Z.of_nat n
  /\ (n <> O -> error (out w') = false).
Proof.
  revert p w. induction n as [| n IH]; intros p w H.
  - cbn in H. injection H as <- <-. cbn. repeat split; [lia | congruence].
  - cbn [polygons_loop] in H. unfold bind in H.
    destruct (convert_polygon buf p w) as [r w1 | i w1] eqn:E; [| discriminate].
    destruct (convert_polygon_ret _ _ _ _ _ E) as [H0 H2].
    rewrite convert_polygon_in in E by assumption.
    apply Ret_inj in E. destruct E as [Er Ew]. subst w1.
    destruct r.
    + destruct (IH _ _ H) as (-> & -> & Herr).
      cbn [polys_world]. repeat split; [lia |].
      intros _. destruct n as [| n].
      * cbn [polys_world]. now apply negb_true_iff in Er.
      * now apply Herr.
    + rewrite polygons_loop_false in H. discriminate.
Qed.

Lemma vertices_loop_ret n x z buf p w p' w' :
  vertices_loop n true x z buf p w = Ret (true, p') w' ->
  w' = verts_world n x z buf p w
  /\ p' = p + VERTEX_SIZE * Z.of_nat n
  /\ (n <> O -> error (out w') = false).
Proof.
  revert p w. induction n as [| n IH]; intros p w H.
  - cbn in H. injection H as <- <-. cbn. repeat split; [lia | congruence].
  - cbn [vertices_loop] in H. unfold bind in H.
    destruct (convert_vertex x z buf p w) as [r w1 | i w1] eqn:E; [| discriminate].
    destruct (convert_vertex_ret _ _ _ _ _ _ _ E) as [H0 H5].
    rewrite convert_vertex_in in E by assumption.
    apply Ret_inj in E. destruct E as [Er Ew]. subst w1.
    destruct r.
    + destruct (IH _ _ H) as (-> & -> & Herr).
      cbn [verts_world]. repeat split; [lia |].
      intros _. destruct n as [| n].
      * cbn [verts_world]. now apply negb_true_iff in Er.
      * now apply Herr.
    + rewrite vertices_loop_false in H. discriminate.
Qed.

(** Records that lie inside the buffer and a device with room: the loop
    converts all of them. *)
Lemma polygons_loop_in n buf p w :
  0 <= p -> p + POLYGON_SIZE * Z.of_nat n <= Z.of_nat (List.length buf) ->
  error (out (polys_world n buf p w)) = false ->
  polygons_loop n true buf p w
  = Ret (true, p + POLYGON_SIZE * Z.of_nat n) (polys_world n buf p w).
Proof.
  revert p w. induction n as [| n IH]; intros p w H0 Hlen Herr.
  - cbn. unfold ret. do 2 f_equal. lia.
  - assert (HP : POLYGON_SIZE = 16) by reflexivity.
    cbn [polygons_loop polys_world] in *. unfold bind.
    rewrite convert_polygon_in by (unfold in_buf; lia).
    assert (E : error (out (polygon_world buf p w)) = false).
    { rewrite polys_world_out in Herr. now apply write_error_sticky in Herr. }
    rewrite E. cbn [negb]. rewrite IH; [do 2 f_equal; lia | lia | lia | assumption].
Qed.

Lemma vertices_loop_in n x z buf p w :
  0 <= p -> p + VERTEX_SIZE * Z.of_nat n <= Z.of_nat (List.length buf) ->
  error (out (verts_world n x z buf p w)) = false ->
  vertices_loop n true x z buf p w
  = Ret (true, p + VERTEX_SIZE * Z.of_nat n) (verts_world n x z buf p w).
Proof.
  revert p w. induction n as [| n IH]; intros p w H0 Hlen Herr.
  - cbn. unfold ret. do 2 f_equal. lia.
  - assert (HP : VERTEX_SIZE = 8) by reflexivity.
    cbn [vertices_loop verts_world] in *. unfold bind.
    rewrite convert_vertex_in by (unfold in_buf; lia).
    assert (E : error (out (vertex_world x z buf p w)) = false).
    { rewrite verts_world_out in Herr. now apply write_error_sticky in Herr. }
    rewrite E. cbn [negb]. rewrite IH; [do 2 f_equal; lia | lia | lia | assumption].
Qed.

Lemma records_world_out np nv x z buf p w :
  out (records_world np nv x z buf p w)
  = write (block_text (vert_max (vid w)) x z buf p np nv) (out w).
Proof.
  unfold records_world, block_text.
  rewrite verts_world_out, polys_world_out. cbn [enter_block with_vid vid out prev_vert_max].
  now rewrite write_write.
Qed.

Lemma convert_block_records_ret np nv x z buf p w w' :
  convert_block_records np nv x z buf p w = Ret true w' ->
  w' = records_world (Z.to_nat np) (Z.to_nat nv) x z buf p w
  /\ text (out w')
     = (text (out w)
        ++ block_text (vert_max (vid w)) x z buf p (Z.to_nat np) (Z.to_nat nv))%string.
Proof.
  intros H. unfold convert_block_records in H.
  unfold bind at 1 in H. unfold get_vid at 1 in H.
  unfold bind at 1 in H. unfold set_prev_vert_max at 1 in H.
  fold (enter_block w) in H. unfold bind at 1 in H.
  destruct (polygons_loop _ true buf p (enter_block w))
    as [[r1 p1] w1 | i w1] eqn:E1; [| discriminate].
  unfold bind at 1 in H.
  destruct r1; [| rewrite vertices_loop_false in H; discriminate].
  destruct (vertices_loop _ true x z buf p1 w1) as [[r2 p2] w2 | i w2] eqn:E2;
    [| discriminate].
  injection H as -> ->.
  apply polygons_loop_ret in E1. destruct E1 as (-> & -> & Herr1).
  apply vertices_loop_ret in E2. destruct E2 as (E2 & _ & Herr2).
  fold (records_world (Z.to_nat np) (Z.to_nat nv) x z buf p w) in E2, Herr2.
  split; [exact E2 |]. subst w'.
  destruct (Z.to_nat nv) as [| nv'] eqn:Env.
  - destruct (Z.to_nat np) as [| np'] eqn:Enp.
    + cbn. now rewrite append_nil_r.
    + rewrite records_world_out. apply write_clean.
      rewrite <- records_world_out. unfold records_world. cbn [verts_world].
      apply Herr1. congruence.
  - rewrite records_world_out. apply write_clean.
    rewrite <- records_world_out. apply Herr2. congruence.
Qed.

(** ** The offset table *)

Lemma offset_loc_value pos : 0 <= pos < 16 -> offset_loc pos = 4 + pos * 4.
Proof.
  intros H. unfold offset_loc, GROUP_ID_SIZE, BLOCK_OFFSET_SIZE.
  rewrite (uint_small (pos * 4)) by lia.
  rewrite uint_small by lia. apply ulong_small. lia.
Qed.

Lemma sint_high x : 2 ^ 31 <= x < 2 ^ 32 -> sint x = x - 2 ^ 32.
Proof.
  intros H. unfold sint.
  rewrite <- (Z.mod_unique_pos (x + 2 ^ 31) (2 ^ 32) 1 (x - 2 ^ 31)); lia.
Qed.

(** The offset in [unsigned long int]: the little-endian value when the top
    bit of the fourth byte is clear, and its sign extension when it is set. *)
Lemma block_offset_value b0 b1 b2 b3 :
  0 <= b0 <= 255 -> 0 <= b1 <= 255 -> 0 <= b2 <= 255 -> 0 <= b3 <= 255 ->
  block_offset b0 b1 b2 b3
  = let v := b0 + 2 ^ 8 * b1 + 2 ^ 16 * b2 + 2 ^ 24 * b3 in
    if b3 <? 128 then v else v + 2 ^ 64 - 2 ^ 32.
Proof.
  intros H0 H1 H2 H3. unfold block_offset. cbv zeta.
  rewrite !shiftl_byte by lia.
  rewrite (sint_small (b1 * 2 ^ 8)) by lia.
  rewrite (sint_small (b2 * 2 ^ 16)) by lia.
  rewrite (lor_disjoint b0) by lia.
  rewrite (lor_disjoint (b0 + b1 * 2 ^ 8)) by lia.
  destruct (Z.ltb_spec b3 128) as [Hlo | Hhi].
  - rewrite (sint_small (b3 * 2 ^ 24)) by lia.
    rewrite lor_disjoint by lia.
    rewrite sint_small by lia. rewrite ulong_small by lia. lia.
  - rewrite (sint_high (b3 * 2 ^ 24)) by lia.
    replace (b3 * 2 ^ 24 - 2 ^ 32) with ((b3 - 256) * 2 ^ 24) by lia.
    rewrite lor_disjoint by lia.
    rewrite sint_small by lia.
    unfold ulong. symmetry.
    rewrite <- (Z.mod_unique_pos _ (2 ^ 64) (-1)
                  (b0 + 2 ^ 8 * b1 + 2 ^ 16 * b2 + 2 ^ 24 * b3 + 2 ^ 64 - 2 ^ 32));
      lia.
Qed.

Lemma entry_offset_value buf pos :
  0 <= pos < 16 ->
  entry_offset buf pos
  = if byte_at buf (4 + pos * 4 + 3) <? 128
    then le32_at buf (4 + pos * 4)
    else le32_at buf (4 + pos * 4) + 2 ^ 64 - 2 ^ 32.
Proof.
  intros H. unfold entry_offset. cbv zeta. rewrite offset_loc_value by assumption.
  rewrite block_offset_value by apply byte_at_range. reflexivity.
Qed.

(** The check of line 140 is a check of the little-endian entry. *)
Lemma entry_offset_check buf pos :
  0 <= pos < 16 ->
  (entry_offset buf pos >? BLOCK_OFFSET_MAX)
  = (le32_at buf (4 + pos * 4) >? BLOCK_OFFSET_MAX).
Proof.
  intros H. rewrite entry_offset_value by assumption.
  assert (HM : BLOCK_OFFSET_MAX = 34560) by reflexivity.
  unfold le32_at.
  pose proof (byte_at_range buf (4 + pos * 4)).
  pose proof (byte_at_range buf (4 + pos * 4 + 1)).
  pose proof (byte_at_range buf (4 + pos * 4 + 2)).
  pose proof (byte_at_range buf (4 + pos * 4 + 3)).
  destruct (Z.ltb_spec (byte_at buf (4 + pos * 4 + 3)) 128); [reflexivity |].
  destruct (Z.gtb_spec (byte_at buf (4 + pos * 4) + 2 ^ 8 * byte_at buf (4 + pos * 4 + 1)
     + 2 ^ 16 * byte_at buf (4 + pos * 4 + 2) + 2 ^ 24 * byte_at buf (4 + pos * 4 + 3)
     + 2 ^ 64 - 2 ^ 32) BLOCK_OFFSET_MAX);
  destruct (Z.gtb_spec (byte_at buf (4 + pos * 4) + 2 ^ 8 * byte_at buf (4 + pos * 4 + 1)
     + 2 ^ 16 * byte_at buf (4 + pos * 4 + 2) + 2 ^ 24 * byte_at buf (4 + pos * 4 + 3))
     BLOCK_OFFSET_MAX); try reflexivity; lia.
Qed.

Lemma entry_offset_le32 buf pos :
  0 <= pos < 16 -> entry_offset buf pos <= BLOCK_OFFSET_MAX ->
  entry_offset buf pos = le32_at buf (4 + pos * 4).
Proof.
  intros H Hle. rewrite entry_offset_value in * by assumption.
  assert (HM : BLOCK_OFFSET_MAX = 34560) by reflexivity.
  destruct (Z.ltb_spec (byte_at buf (4 + pos * 4 + 3)) 128); [reflexivity |].
  unfold le32_at in *.
  pose proof (byte_at_range buf (4 + pos * 4)).
  pose proof (byte_at_range buf (4 + pos * 4 + 1)).
  pose proof (byte_at_range buf (4 + pos * 4 + 2)).
  lia.
Qed.

Lemma entry_offset_nonneg buf pos : 0 <= entry_offset buf pos.
Proof. unfold entry_offset, block_offset. apply ulong_range. Qed.

(** ** One block *)

Lemma table_in_buf buf pos k :
  0 <= pos < 16 -> 0 <= k < 4 -> SEGMENT_SIZE <= Z.of_nat (List.length buf) ->
  in_buf buf (offset_loc pos + k).
Proof.
  intros Hp Hk Hl. rewrite offset_loc_value by assumption.
  unfold in_buf. change SEGMENT_SIZE with 36864 in Hl. lia.
Qed.

Lemma convert_block_rejects pos x z buf w :
  0 <= pos < 16 -> SEGMENT_SIZE <= Z.of_nat (List.length buf) ->
  entry_offset buf pos > BLOCK_OFFSET_MAX ->
  convert_block pos x z buf w = Ret false (block_failure w).
Proof.
  intros Hp Hl Hoff. unfold convert_block. cbv zeta.
  pose proof (table_in_buf buf pos 0 Hp ltac:(lia) Hl) as H0.
  rewrite Z.add_0_r in H0.
  rewrite bind_rd_in by assumption.
  rewrite bind_rd_in by (apply table_in_buf; [assumption | lia | assumption]).
  rewrite bind_rd_in by (apply table_in_buf; [assumption | lia | assumption]).
  rewrite bind_rd_in by (apply table_in_buf; [assumption | lia | assumption]).
  fold (entry_offset buf pos).
  destruct (Z.gtb_spec (entry_offset buf pos) BLOCK_OFFSET_MAX); [| lia].
  reflexivity.
Qed.

Lemma convert_block_accepts pos x z buf w :
  0 <= pos < 16 -> SEGMENT_SIZE <= Z.of_nat (List.length buf) ->
  entry_offset buf pos <= BLOCK_OFFSET_MAX ->
  convert_block pos x z buf w = block_body pos x z buf w.
Proof.
  intros Hp Hl Hoff. unfold convert_block. cbv zeta.
  pose proof (table_in_buf buf pos 0 Hp ltac:(lia) Hl) as H0.
  rewrite Z.add_0_r in H0.
  rewrite bind_rd_in by assumption.
  rewrite bind_rd_in by (apply table_in_buf; [assumption | lia | assumption]).
  rewrite bind_rd_in by (apply table_in_buf; [assumption | lia | assumption]).
  rewrite bind_rd_in by (apply table_in_buf; [assumption | lia | assumption]).
  fold (entry_offset buf pos).
  destruct (Z.gtb_spec (entry_offset buf pos) BLOCK_OFFSET_MAX); [lia |].
  replace (offset_loc pos + (entry_offset buf pos - offset_loc pos))
    with (entry_offset buf pos) by lia.
  pose proof (entry_offset_nonneg buf pos) as Hnn.
  assert (HM : BLOCK_OFFSET_MAX = 34560) by reflexivity.
  change SEGMENT_SIZE with 36864 in Hl.
  rewrite bind_rd_in by (unfold in_buf; lia).
  rewrite bind_rd_in by (unfold in_buf; lia).
  reflexivity.
Qed.

Lemma pad_vert_max_eq w : pad_vert_max w = Ret tt (leave_block w).
Proof. reflexivity. Qed.

Lemma leave_block_out w : out (leave_block w) = out w.
Proof. reflexivity. Qed.

(** Whatever the block body returns, it went through the records and the
    padding step. *)
Lemma block_body_ret pos x z buf w r w' :
  block_body pos x z buf w = Ret r w' ->
  exists w1,
    convert_block_records (byte_at buf (entry_offset buf pos))
      (byte_at buf (entry_offset buf pos + 1))
      (block_x pos x) (block_z pos z) buf (records_at buf pos) w = Ret r w1
    /\ w' = leave_block w1.
Proof.
  intros H. unfold block_body in H. cbv zeta in H. unfold bind at 1 in H.
  fold (records_at buf pos) in H.
  destruct (convert_block_records _ _ _ _ buf (records_at buf pos) w)
    as [r1 w1 | i w1]; [| discriminate].
  unfold bind in H. rewrite pad_vert_max_eq in H. injection H as <- <-.
  now exists w1.
Qed.

(** A block that converts: the world and the text it leaves. *)
Lemma block_body_true pos x z buf w w' :
  block_body pos x z buf w = Ret true w' ->
  w' = leave_block (records_world (num_polys_at buf pos) (num_verts_at buf pos)
                      (block_x pos x) (block_z pos z) buf (records_at buf pos) w)
  /\ text (out w')
     = (text (out w)
        ++ block_text (vert_max (vid w)) (block_x pos x) (block_z pos z) buf
             (records_at buf pos) (num_polys_at buf pos) (num_verts_at buf pos))%string.
Proof.
  intros H. apply block_body_ret in H. destruct H as (w1 & H & ->).
  apply convert_block_records_ret in H. destruct H as [-> Ht].
  split; [reflexivity | exact Ht].
Qed.

(** ** The maximum of a block *)

Lemma polys_world_vert_max n buf p w :
  vert_max (vid (polys_world n buf p w))
  = fold_left bump (block_refs (prev_vert_max (vid w)) buf p n) (vert_max (vid w)).
Proof.
  revert p w. induction n as [| n IH]; intros p w; [reflexivity |].
  cbn [polys_world block_refs]. rewrite IH.
  rewrite polygon_world_prev, polygon_world_vert_max. reflexivity.
Qed.

Lemma fold_bump_spec l m :
  let r := fold_left bump l m in
  m <= r /\ (forall x, In x l -> x <= r) /\ (r = m \/ In r l).
Proof.
  revert m. induction l as [| a l IH]; intros m; cbn.
  - repeat split; [lia | tauto | now left].
  - destruct (IH (bump m a)) as (H1 & H2 & H3).
    assert (Hb : m <= bump m a /\ a <= bump m a /\ (bump m a = m \/ bump m a = a)).
    { unfold bump. destruct (Z.gtb_spec a m); lia. }
    repeat split.
    + lia.
    + intros x [<- | Hx]; [lia | now apply H2].
    + destruct H3 as [H3 | H3]; [| now right; right].
      rewrite H3. destruct Hb as (_ & _ & [Hb | Hb]); [now left | right; now left].
Qed.

Lemma global_index_exact pvm buf p i :
  0 <= pvm -> pvm + 255 < 2 ^ 64 ->
  global_index pvm buf p i = pvm + byte_at buf (p + i).
Proof.
  intros H0 H1. unfold global_index. apply ulong_small.
  pose proof (byte_at_range buf (p + i)). lia.
Qed.

Lemma block_refs_lower pvm buf p n x :
  0 <= pvm -> pvm + 255 < 2 ^ 64 ->
  In x (block_refs pvm buf p n) -> pvm <= x <= pvm + 255.
Proof.
  intros H0 H1. revert p. induction n as [| n IH]; intros p; cbn; [tauto |].
  intros [<- | [<- | [<- | H]]];
    try (rewrite global_index_exact by assumption;
         pose proof (byte_at_range buf (p + 0));
         pose proof (byte_at_range buf (p + 1));
         pose proof (byte_at_range buf (p + 2)); lia).
  now apply (IH (p + POLYGON_SIZE)).
Qed.

(** ** The history of the vertex index data *)

Lemma same_vid_refl w : same_vid w w.
Proof. now split. Qed.

Lemma same_vid_trans w1 w2 w3 : same_vid w1 w2 -> same_vid w2 w3 -> same_vid w1 w3.
Proof. intros [H1 H2] [H3 H4]. split; congruence. Qed.

Lemma run_inv_mono B B' w : B <= B' -> run_inv B w -> run_inv B' w.
Proof.
  intros HB [Ha Hf]. split; [assumption |].
  eapply Forall_impl; [| exact Hf]. unfold state_ok. intros v Hv. lia.
Qed.

Lemma run_inv_same B w w' : same_vid w w' -> run_inv B w -> run_inv B w'.
Proof. intros [H1 H2]. unfold run_inv, history. now rewrite H1, H2. Qed.

Lemma blk_inv_same B w w' : same_vid w w' -> blk_inv B w -> blk_inv B w'.
Proof.
  intros Hs [H1 H2]. split; [now apply (run_inv_same _ w) |].
  destruct Hs as [-> _]. assumption.
Qed.

Lemma run_inv_push B w v :
  run_inv B w -> vid_le (vid w) v -> state_ok B v -> run_inv B (with_vid v w).
Proof.
  intros [Ha Hf] Hle Hok. split.
  - cbn. split; assumption.
  - unfold history. cbn. constructor; assumption.
Qed.

Lemma run_inv_head B w : run_inv B w -> state_ok B (vid w).
Proof. intros [_ Hf]. now inversion Hf. Qed.

Lemma index_step_inv B0 buf p i w :
  B0 + 256 < 2 ^ 64 -> blk_inv B0 w -> blk_inv B0 (index_step buf p i w).
Proof.
  intros HB [Hr Hp]. pose proof (run_inv_head _ _ Hr) as [Hs1 Hs2].
  pose proof (byte_at_range buf (p + i)) as Hb.
  unfold index_step. cbv zeta. cbn [vid with_out].
  rewrite ulong_small by lia.
  set (w1 := with_out _ w).
  assert (Hw1 : blk_inv B0 w1) by (apply (blk_inv_same _ w); [now split | now split]).
  destruct (Z.gtb_spec (prev_vert_max (vid w) + byte_at buf (p + i)) (vert_max (vid w)));
    [| exact Hw1].
  split; [| exact Hp].
  apply run_inv_push; [apply Hw1 | |]; unfold vid_le, state_ok; cbn; lia.
Qed.

Lemma convert_vertex_final x z buf p w :
  same_vid w (final (convert_vertex x z buf p w)).
Proof.
  unfold convert_vertex, bind, rd, fwrite, ferror, ret.
  repeat match goal with
         | |- context [if ?c then _ else _] => destruct c
         end; now split.
Qed.

Lemma vertices_loop_final n res x z buf p w :
  same_vid w (final (vertices_loop n res x z buf p w)).
Proof.
  revert res p w. induction n as [| n IH]; intros res p w; [apply same_vid_refl |].
  cbn [vertices_loop]. destruct res; [| apply same_vid_refl].
  unfold bind. pose proof (convert_vertex_final x z buf p w) as H.
  destruct (convert_vertex x z buf p w) as [r w1 | j w1]; [| exact H].
  eapply same_vid_trans; [exact H | apply IH].
Qed.

(** A property of the world that only looks at the vertex index data and that
    one iteration of the loop of [convert_polygon] keeps is kept by the
    records of a block, wherever they stop. *)
Section RecordInvariant.

Variable Inv : world -> Prop.
Hypothesis Inv_same : forall w w', same_vid w w' -> Inv w -> Inv w'.
Hypothesis Inv_step : forall buf p i w, Inv w -> Inv (index_step buf p i w).

Lemma polygon_indices_keeps n i buf p w :
  Inv w -> Inv (final (polygon_indices n i buf p w)).
Proof.
  revert i w. induction n as [| n IH]; intros i w Hw; [exact Hw |].
  destruct (in_buf_dec buf (p + i)) as [Hi | Hi].
  - rewrite polygon_index_in by assumption. apply IH. now apply Inv_step.
  - cbn [polygon_indices]. unfold bind at 1. unfold get_vid at 1.
    rewrite bind_rd_out by assumption. exact Hw.
Qed.

Lemma convert_polygon_keeps buf p w :
  Inv w -> Inv (final (convert_polygon buf p w)).
Proof.
  intros Hw. unfold convert_polygon.
  unfold bind at 1. unfold fwrite at 1. unfold bind at 1.
  set (w0 := with_out _ w).
  assert (Hw0 : Inv w0) by (apply (Inv_same w); [now split | assumption]).
  pose proof (polygon_indices_keeps (Z.to_nat VERTICES_PER_POLYGON) 0 buf p w0 Hw0) as H.
  destruct (polygon_indices _ 0 buf p w0) as [a w1 | j w1]; [| exact H].
  cbn in H |- *. apply (Inv_same w1); [now split | assumption].
Qed.

Lemma polygons_loop_keeps n res buf p w :
  Inv w -> Inv (final (polygons_loop n res buf p w)).
Proof.
  revert res p w. induction n as [| n IH]; intros res p w Hw; [exact Hw |].
  cbn [polygons_loop]. destruct res; [| exact Hw].
  unfold bind. pose proof (convert_polygon_keeps buf p w Hw) as H.
  destruct (convert_polygon buf p w) as [r w1 | j w1]; [| exact H].
  apply IH. exact H.
Qed.

Lemma convert_block_records_keeps np nv x z buf p w :
  Inv (enter_block w) ->
  Inv (final (convert_block_records np nv x z buf p w)).
Proof.
  intros Hw. unfold convert_block_records.
  unfold bind at 1. unfold get_vid at 1.
  unfold bind at 1. unfold set_prev_vert_max at 1.
  fold (enter_block w). unfold bind at 1.
  pose proof (polygons_loop_keeps (Z.to_nat np) true buf p _ Hw) as H.
  destruct (polygons_loop _ true buf p (enter_block w)) as [[r1 p1] w1 | j w1];
    [| exact H].
  cbn in H. unfold bind.
  pose proof (vertices_loop_final (Z.to_nat nv) r1 x z buf p1 w1) as Hv.
  destruct (vertices_loop _ r1 x z buf p1 w1) as [[r2 p2] w2 | j w2];
    cbn in Hv |- *; now apply (Inv_same w1).
Qed.

End RecordInvariant.

Lemma enter_block_inv B0 w : run_inv B0 w -> blk_inv B0 (enter_block w).
Proof.
  intros Hr. pose proof (run_inv_head _ _ Hr) as [Hs1 Hs2].
  split; [| cbn; lia].
  apply run_inv_push; [apply (run_inv_mono B0); [lia | assumption] | |];
    unfold vid_le, state_ok; cbn; lia.
Qed.

Lemma convert_block_records_final B0 np nv x z buf p w :
  B0 + 256 < 2 ^ 64 -> run_inv B0 w ->
  blk_inv B0 (final (convert_block_records np nv x z buf p w)).
Proof.
  intros HB Hw. apply (convert_block_records_keeps (blk_inv B0)).
  - apply blk_inv_same.
  - intros. now apply index_step_inv.
  - now apply enter_block_inv.
Qed.

Lemma convert_block_records_bound np nv x z buf p w :
  0 <= vert_max (vid w) -> vert_max (vid w) + 255 < 2 ^ 64 ->
  blk_bound (vert_max (vid w)) (final (convert_block_records np nv x z buf p w)).
Proof.
  intros H0 Hov. apply (convert_block_records_keeps (blk_bound (vert_max (vid w)))).
  - intros u u' [E _] Hu. unfold blk_bound in *. now rewrite E.
  - intros b q i u [Hp Hv]. unfold blk_bound.
    rewrite index_step_prev, index_step_vert_max, Hp.
    rewrite global_index_exact by assumption.
    pose proof (byte_at_range b (q + i)).
    unfold bump. destruct (_ >? _); lia.
  - unfold blk_bound. cbn. lia.
Qed.

Lemma leave_block_inv B0 w :
  B0 + 256 < 2 ^ 64 -> blk_inv B0 w -> run_inv (B0 + 256) (leave_block w).
Proof.
  intros HB [Hr Hp]. pose proof (run_inv_head _ _ Hr) as [Hs1 Hs2].
  unfold leave_block. rewrite ulong_small by lia.
  apply run_inv_push; [apply (run_inv_mono (B0 + 255)); [lia | assumption] | |];
    unfold vid_le, state_ok; cbn; lia.
Qed.

Lemma convert_block_final B0 pos x z buf w :
  B0 + 256 < 2 ^ 64 -> run_inv B0 w ->
  run_inv (B0 + 256) (final (convert_block pos x z buf w)).
Proof.
  intros HB Hw.
  assert (Hw' : run_inv (B0 + 256) w) by (apply (run_inv_mono B0); [lia | assumption]).
  unfold convert_block. cbv zeta.
  destruct (in_buf_dec buf (offset_loc pos));
    [rewrite bind_rd_in by assumption | now rewrite bind_rd_out by assumption].
  destruct (in_buf_dec buf (offset_loc pos + 1));
    [rewrite bind_rd_in by assumption | now rewrite bind_rd_out by assumption].
  destruct (in_buf_dec buf (offset_loc pos + 2));
    [rewrite bind_rd_in by assumption | now rewrite bind_rd_out by assumption].
  destruct (in_buf_dec buf (offset_loc pos + 3));
    [rewrite bind_rd_in by assumption | now rewrite bind_rd_out by assumption].
  destruct (_ >? BLOCK_OFFSET_MAX).
  - cbn. apply (run_inv_same _ w); [now split | assumption].
  - match goal with |- context [rd buf ?q] => set (q0 := q) end.
    destruct (in_buf_dec buf q0);
      [rewrite bind_rd_in by assumption | now rewrite bind_rd_out by assumption].
    destruct (in_buf_dec buf (q0 + 1));
      [rewrite bind_rd_in by assumption | now rewrite bind_rd_out by assumption].
    unfold bind at 1.
    pose proof (convert_block_records_final B0 (byte_at buf q0) (byte_at buf (q0 + 1))
                  (block_x pos x) (block_z pos z) buf (q0 + BLOCK_HEADER_SIZE) w HB Hw) as H.
    destruct (convert_block_records _ _ _ _ buf _ w) as [r w1 | j w1]; cbn in H.
    + unfold bind. rewrite pad_vert_max_eq. cbn. now apply leave_block_inv.
    + cbn. destruct H as [H _]. apply (run_inv_mono (B0 + 255)); [lia | assumption].
Qed.

Lemma blocks_loop_final B n i res x z buf w :
  B + 256 * Z.of_nat n < 2 ^ 64 -> run_inv B w ->
  run_inv (B + 256 * Z.of_nat n) (final (blocks_loop n i res x z buf w)).
Proof.
  revert B i res w. induction n as [| n IH]; intros B i res w HB Hw.
  - cbn. apply (run_inv_mono B); [lia | assumption].
  - cbn [blocks_loop]. destruct res.
    + unfold bind.
      pose proof (convert_block_final B i x z buf w ltac:(lia) Hw) as H.
      destruct (convert_block i x z buf w) as [r w1 | j w1]; cbn in H.
      * replace (B + 256 * Z.of_nat (S n)) with (B + 256 + 256 * Z.of_nat n) by lia.
        apply IH; [lia | assumption].
      * cbn. apply (run_inv_mono (B + 256)); [lia | assumption].
    + cbn. apply (run_inv_mono B); [lia | assumption].
Qed.

(** The two ways of [convert_segment]: the segment is read and its blocks
    are converted in a world that differs in the position only, or the read
    fails and the messages of lines 180-182 are all that happens. *)
Lemma convert_segment_cases pos w :
  (exists buf w0,
      fread_segment w = Ret (Some buf) w0
      /\ convert_segment pos w
         = blocks_loop 16 0 true (segment_x pos) (segment_z pos) buf w0
      /\ Z.of_nat (List.length buf) = SEGMENT_SIZE
      /\ same_vid w w0 /\ out w0 = out w /\ stderr w0 = stderr w
      /\ heap_ok w0 = heap_ok w
      /\ content (inp w0) = content (inp w)
      /\ seekable (inp w0) = seekable (inp w)
      /\ fpos (inp w0) = fpos (inp w) + SEGMENT_SIZE
      /\ (0 <= fpos (inp w) ->
          fpos (inp w) + SEGMENT_SIZE <= Z.of_nat (List.length (content (inp w)))))
  \/ (exists at_end w1,
        convert_segment pos w = Ret false w1
        /\ stderr w1 = stderr w ++ diagnostics (ReadFailed at_end)
        /\ same_vid w w1 /\ out w1 = out w /\ heap_ok w1 = heap_ok w
        /\ content (inp w1) = content (inp w)
        /\ seekable (inp w1) = seekable (inp w)).
Proof.
  unfold convert_segment, bind, fread_segment. cbv beta.
  destruct (eof (inp w)) eqn:Ee.
  - right. exists true. unfold eputs, feof, ret. cbv beta iota.
    cbn [inp with_stderr]. rewrite Ee. cbv beta iota. eexists. split; [reflexivity |].
    cbn [stderr with_stderr diagnostics]. rewrite <- app_assoc.
    repeat split; reflexivity.
  - destruct (Z.leb_spec SEGMENT_SIZE
                (Z.of_nat (List.length (skipn (Z.to_nat (fpos (inp w)))
                                          (content (inp w)))))) as [Hle | Hgt].
    + left. eexists. eexists. split; [reflexivity |]. split; [reflexivity |].
      rewrite length_skipn in Hle.
      split; [rewrite length_firstn, length_skipn;
              change SEGMENT_SIZE with 36864 in *; lia |].
      repeat split; try reflexivity.
      cbn [inp with_inp content]. change SEGMENT_SIZE with 36864 in *. lia.
    + right. exists (negb (faulty (inp w))). unfold eputs, feof, ret.
      cbv beta iota. cbn [inp with_stderr with_inp eof].
      destruct (faulty (inp w)); cbn [negb]; cbv beta iota;
        (eexists; split; [reflexivity |]);
        cbn [stderr with_stderr with_inp diagnostics];
        rewrite <- ?app_assoc; repeat split; reflexivity.
Qed.

Lemma convert_segment_final B pos w :
  B + 4096 < 2 ^ 64 -> run_inv B w ->
  run_inv (B + 4096) (final (convert_segment pos w)).
Proof.
  intros HB Hw.
  destruct (convert_segment_cases pos w)
    as [(buf & w0 & _ & E & _ & Hv & _) | (ae & w1 & E & _ & Hv & _)]; rewrite E.
  - apply (blocks_loop_final B 16); [lia |].
    apply (run_inv_same _ w); [exact Hv | assumption].
  - cbn [final]. apply (run_inv_same _ w); [exact Hv |].
    apply (run_inv_mono B); [lia | assumption].
Qed.

Lemma segments_loop_final B n j res w :
  B + 4096 * Z.of_nat n < 2 ^ 64 -> run_inv B w ->
  run_inv (B + 4096 * Z.of_nat n) (final (segments_loop n j res w)).
Proof.
  revert B j res w. induction n as [| n IH]; intros B j res w HB Hw.
  - cbn. apply (run_inv_mono B); [lia | assumption].
  - cbn [segments_loop]. destruct res.
    + unfold bind.
      pose proof (convert_segment_final B j w ltac:(lia) Hw) as H.
      destruct (convert_segment j w) as [r w1 | k w1]; cbn in H.
      * replace (B + 4096 * Z.of_nat (S n)) with (B + 4096 + 4096 * Z.of_nat n) by lia.
        apply IH; [lia | assumption].
      * cbn. apply (run_inv_mono (B + 4096)); [lia | assumption].
    + cbn. apply (run_inv_mono B); [lia | assumption].
Qed.

Lemma segment_count_bound start end_ :
  Z.of_nat (segment_count start end_) < 2 ^ 32.
Proof.
  unfold segment_count. pose proof (uint_range (uint (end_ + 1) - start)). lia.
Qed.

(** The count is the number of increments that take [i] from [start] to the
    incremented [end]: the test [i != end] holds before each of them and
    fails after the last. *)
Lemma segment_count_exact start end_ :
  0 <= start < 2 ^ 32 ->
  let n := Z.of_nat (segment_count start end_) in
  uint (start + n) = uint (end_ + 1)
  /\ forall k, 0 <= k < n -> uint (start + k) <> uint (end_ + 1).
Proof.
  intros Hs. cbv zeta. unfold segment_count.
  pose proof (uint_range (end_ + 1)) as He.
  pose proof (uint_range (uint (end_ + 1) - start)) as Hn.
  rewrite Z2Nat.id by lia.
  set (e := uint (end_ + 1)) in *.
  assert (Hd : uint (e - start) = if e <? start then e - start + 2 ^ 32 else e - start).
  { unfold uint. destruct (Z.ltb_spec e start).
    - symmetry. apply (Z.mod_unique_pos _ _ (-1)); lia.
    - apply Z.mod_small. lia. }
  rewrite Hd in *. split.
  - unfold uint. destruct (Z.ltb_spec e start).
    + symmetry. apply (Z.mod_unique_pos _ _ 1); lia.
    + replace (start + (e - start)) with e by lia. apply Z.mod_small. lia.
  - intros k Hk. unfold uint.
    destruct (Z.ltb_spec e start).
    + destruct (Z.lt_ge_cases (start + k) (2 ^ 32)).
      * rewrite Z.mod_small by lia. lia.
      * rewrite <- (Z.mod_unique_pos (start + k) (2 ^ 32) 1 (start + k - 2 ^ 32)); lia.
    + rewrite Z.mod_small by lia. lia.
Qed.

Lemma init_vid_inv w : run_inv 1 (final (init_vid initial_vid w)).
Proof.
  split; cbn; [exact I |]. constructor; [| constructor].
  unfold state_ok; cbn; lia.
Qed.

Lemma fseek_cases off w :
  fseek off w = Ret true w \/ fseek off w = Ret false (seek_to off w).
Proof. unfold fseek. destruct (seekable (inp w) && _); [now right | now left]. Qed.

Lemma convert_to_obj_final start end_ w :
  stopped_early w (final (convert_to_obj start end_ w))
  \/ run_inv (2 ^ 45) (final (convert_to_obj start end_ w)).
Proof.
  unfold convert_to_obj, bind.
  destruct (fseek_cases (slong (ulong (start * SEGMENT_SIZE))) w) as [E | E];
    rewrite E; cbv iota beta.
  - left. cbn. repeat split. now eexists.
  - unfold malloc. cbn [heap_ok seek_to with_inp].
    destruct (heap_ok w); cbn [negb].
    + right.
      match goal with |- context [init_vid _ ?x] => set (w0 := x) end.
      pose proof (init_vid_inv w0) as H. cbn [init_vid final] in H |- *.
      pose proof (segment_count_bound start end_) as Hn.
      apply (run_inv_mono (1 + 4096 * Z.of_nat (segment_count start end_))); [lia |].
      apply segments_loop_final; [lia | exact H].
    + left. cbn. repeat split. now eexists.
Qed.

(** ** What the records of a block leave alone *)

Lemma index_step_env buf p i w : same_env w (index_step buf p i w).
Proof. apply index_step_frame. Qed.

Lemma polygon_indices_env n i buf p w :
  same_env w (final (polygon_indices n i buf p w)).
Proof.
  revert i w. induction n as [| n IH]; intros i w; [apply same_env_refl |].
  destruct (in_buf_dec buf (p + i)) as [Hi | Hi].
  - rewrite polygon_index_in by assumption.
    eapply same_env_trans; [apply index_step_env | apply IH].
  - cbn [polygon_indices]. unfold bind at 1. unfold get_vid at 1.
    rewrite bind_rd_out by assumption. apply same_env_refl.
Qed.

Lemma convert_polygon_env buf p w : same_env w (final (convert_polygon buf p w)).
Proof.
  unfold convert_polygon.
  unfold bind at 1. unfold fwrite at 1. unfold bind at 1.
  set (w0 := with_out _ w).
  pose proof (polygon_indices_env (Z.to_nat VERTICES_PER_POLYGON) 0 buf p w0) as H.
  destruct (polygon_indices _ 0 buf p w0) as [a w1 | j w1]; exact H.
Qed.

Lemma polygons_loop_env n res buf p w :
  same_env w (final (polygons_loop n res buf p w)).
Proof.
  revert res p w. induction n as [| n IH]; intros res p w; [apply same_env_refl |].
  cbn [polygons_loop]. destruct res; [| apply same_env_refl].
  unfold bind. pose proof (convert_polygon_env buf p w) as H.
  destruct (convert_polygon buf p w) as [r w1 | j w1]; [| exact H].
  eapply same_env_trans; [exact H | apply IH].
Qed.

Lemma convert_vertex_env x z buf p w :
  same_env w (final (convert_vertex x z buf p w)).
Proof.
  unfold convert_vertex, bind, rd, fwrite, ferror, ret.
  repeat match goal with
         | |- context [if ?c then _ else _] => destruct c
         end; now repeat split.
Qed.

Lemma vertices_loop_env n res x z buf p w :
  same_env w (final (vertices_loop n res x z buf p w)).
Proof.
  revert res p w. induction n as [| n IH]; intros res p w; [apply same_env_refl |].
  cbn [vertices_loop]. destruct res; [| apply same_env_refl].
  unfold bind. pose proof (convert_vertex_env x z buf p w) as H.
  destruct (convert_vertex x z buf p w) as [r w1 | j w1]; [| exact H].
  eapply same_env_trans; [exact H | apply IH].
Qed.

Lemma convert_block_records_env np nv x z buf p w :
  same_env w (final (convert_block_records np nv x z buf p w)).
Proof.
  unfold convert_block_records.
  unfold bind at 1. unfold get_vid at 1.
  unfold bind at 1. unfold set_prev_vert_max at 1.
  fold (enter_block w). unfold bind at 1.
  pose proof (polygons_loop_env (Z.to_nat np) true buf p (enter_block w)) as H.
  destruct (polygons_loop _ true buf p (enter_block w)) as [[r1 p1] w1 | j w1];
    [| exact H].
  cbn in H. unfold bind.
  pose proof (vertices_loop_env (Z.to_nat nv) r1 x z buf p1 w1) as Hv.
  destruct (vertices_loop _ r1 x z buf p1 w1) as [[r2 p2] w2 | j w2];
    cbn in Hv |- *; eapply same_env_trans; eassumption.
Qed.



(** A block that returns 1 has passed the offset check. *)
Lemma convert_block_true pos x z buf w w' :
  0 <= pos < 16 -> SEGMENT_SIZE <= Z.of_nat (List.length buf) ->
  convert_block pos x z buf w = Ret true w' ->
  entry_offset buf pos <= BLOCK_OFFSET_MAX
  /\ block_body pos x z buf w = Ret true w'.
Proof.
  intros Hp Hl H.
  destruct (Z.le_gt_cases (entry_offset buf pos) BLOCK_OFFSET_MAX) as [Hle | Hgt].
  - split; [assumption |]. now rewrite <- (convert_block_accepts pos x z buf w).
  - rewrite convert_block_rejects in H by (assumption || lia). discriminate.
Qed.

Lemma blocks_loop_false n i x z buf w :
  blocks_loop n i false x z buf w = Ret false w.
Proof. now destruct n. Qed.

Lemma segments_loop_false n j w : segments_loop n j false w = Ret false w.
Proof. now destruct n. Qed.

(** ** Concrete inputs *)

Lemma minimal_segment_length : Z.of_nat (List.length minimal_segment) = SEGMENT_SIZE.
Proof. vm_compute. reflexivity. Qed.

Lemma zero_segment_length : Z.of_nat (List.length zero_segment) = SEGMENT_SIZE.
Proof. vm_compute. reflexivity. Qed.

Lemma segment_2305_length : Z.of_nat (List.length segment_2305) = SEGMENT_SIZE.
Proof. vm_compute. reflexivity. Qed.


(** ** The loops, piece by piece *)


Lemma blocks_loop_split a b i res x z buf w :
  0 <= i -> i + Z.of_nat a < 2 ^ 32 ->
  blocks_loop (a + b) i res x z buf w
  = (r <- blocks_loop a i res x z buf ;;
     blocks_loop b (i + Z.of_nat a) r x z buf) w.
Proof.
  revert i res w. induction a as [| a IH]; intros i res w H0 H1.
  - cbn. unfold bind, ret. now rewrite Z.add_0_r.
  - cbn [Nat.add blocks_loop]. destruct res.
    + unfold bind.
      destruct (convert_block i x z buf w) as [r w1 | k w1]; [| reflexivity].
      rewrite uint_small by lia. rewrite IH by lia.
      unfold bind. replace (i + 1 + Z.of_nat a) with (i + Z.of_nat (S a)) by lia.
      reflexivity.
    + unfold bind, ret. now rewrite blocks_loop_false.
Qed.

(** A file of one segment, read from its start. *)
Lemma fread_segment_first seg w :
  content (inp w) = seg -> fpos (inp w) = 0 -> eof (inp w) = false ->
  Z.of_nat (List.length seg) = SEGMENT_SIZE ->
  fread_segment w
  = Ret (Some seg)
      (with_inp {| content := seg; fpos := SEGMENT_SIZE;
                   seekable := seekable (inp w); faulty := faulty (inp w);
                   eof := false |} w).
Proof.
  intros Hc Hp He Hl. unfold fread_segment. rewrite He, Hc, Hp.
  change (Z.to_nat 0) with O. cbn [skipn]. rewrite Hl, Z.leb_refl.
  rewrite firstn_all2 by lia. reflexivity.
Qed.



Lemma segment_count_inclusive start end_ :
  0 <= start <= end_ -> end_ < 2 ^ 32 - 1 ->
  Z.of_nat (segment_count start end_) = end_ - start + 1.
Proof.
  intros H1 H2. unfold segment_count.
  rewrite (uint_small (end_ + 1)) by lia. rewrite uint_small by lia. lia.
Qed.

(** A run that gets past the seek and the allocation is the loop over its
    segments, from [run_start]. *)
Lemma convert_to_obj_loop start end_ w :
  0 <= start <= SEGMENT_MAX -> seekable (inp w) = true -> heap_ok w = true ->
  convert_to_obj start end_ w
  = segments_loop (segment_count start end_) (first_column start end_) true
      (run_start start w).
Proof.
  intros Hs Hk Hh.
  assert (HM : SEGMENT_MAX = 834) by reflexivity.
  assert (HS : SEGMENT_SIZE = 36864) by reflexivity.
  assert (Hoff : slong (ulong (start * SEGMENT_SIZE)) = start * SEGMENT_SIZE).
  { rewrite ulong_small by lia. unfold slong. rewrite Z.mod_small; lia. }
  unfold convert_to_obj, bind. rewrite Hoff. unfold fseek. rewrite Hk.
  destruct (Z.leb_spec 0 (start * SEGMENT_SIZE)); [| lia].
  cbn [andb]. cbv iota beta. unfold malloc. cbn [heap_ok with_inp]. rewrite Hh.
  cbn [negb]. unfold init_vid, run_start. cbn [out inp stderr heap_ok with_inp].
  rewrite ?Hk, ?Hh. reflexivity.
Qed.

(** ** C2 *)

Lemma index_step_tie buf p i w :
  global_index (prev_vert_max (vid w)) buf p i <= vert_max (vid w) ->
  same_vid w (index_step buf p i w).
Proof.
  intros H. unfold index_step, global_index in *. cbv zeta. cbn [vid with_out].
  destruct (Z.gtb_spec (ulong (prev_vert_max (vid w) + byte_at buf (p + i)))
              (vert_max (vid w))); [lia | now split].
Qed.

(** C2. For the triangle record at [p], [convert_polygon] prints the three
    global indices [prev_vert_max + b], [b] the local index byte (any value
    in 0..255), and moves [vert_max] to an index only when that index is
    strictly greater: indices at most [vert_max] (ties included) leave the
    structure without any assignment. *)
Theorem convert_polygon_indices (buf : list byte) (p : Z) (w : world) :
  in_buf buf p -> in_buf buf (p + 2) ->
  0 <= prev_vert_max (vid w) -> prev_vert_max (vid w) + 255 < 2 ^ 64 ->
  let pvm := prev_vert_max (vid w) in
  let b i := byte_at buf (p + i) in
  exists w',
    convert_polygon buf p w = Ret (negb (error (out w'))) w'
    /\ out w' = write ("f " ++ dec (pvm + b 0) ++ " " ++ dec (pvm + b 1)
                            ++ " " ++ dec (pvm + b 2) ++ nl) (out w)
    /\ prev_vert_max (vid w') = pvm
    /\ vert_max (vid w')
       = bump (bump (bump (vert_max (vid w)) (pvm + b 0)) (pvm + b 1)) (pvm + b 2)
    /\ (forall vm vert, vert <= vm -> bump vm vert = vm)
    /\ (forall vm vert, vm < vert -> bump vm vert = vert)
    /\ (pvm + b 0 <= vert_max (vid w) -> pvm + b 1 <= vert_max (vid w) ->
        pvm + b 2 <= vert_max (vid w) ->
        vid w' = vid w /\ vid_log w' = vid_log w).
Proof.
  intros H0 H2 Hp Hov pvm b.
  exists (polygon_world buf p w).
  split; [now apply convert_polygon_in |].
  split.
  { rewrite polygon_world_out. unfold face_text.
    rewrite !global_index_exact by assumption. reflexivity. }
  split; [apply polygon_world_prev |].
  split.
  { rewrite polygon_world_vert_max. cbv zeta.
    rewrite !global_index_exact by assumption. reflexivity. }
  split.
  { intros vm vert H. unfold bump. destruct (Z.gtb_spec vert vm); [lia | reflexivity]. }
  split.
  { intros vm vert H. unfold bump. destruct (Z.gtb_spec vert vm); [reflexivity | lia]. }
  intros Ha Hb Hc.
  assert (S : same_vid w (polygon_world buf p w)).
  { unfold polygon_world. cbv zeta.
    set (w0 := with_out (write "f" (out w)) w).
    assert (S0 : same_vid w w0) by apply with_out_vid.
    assert (S1 : same_vid w (index_step buf p 0 w0)).
    { apply (same_vid_trans w w0); [exact S0 |]. apply index_step_tie.
      destruct S0 as [-> _]. rewrite global_index_exact by assumption. exact Ha. }
    assert (S2 : same_vid w (index_step buf p 1 (index_step buf p 0 w0))).
    { eapply same_vid_trans; [exact S1 |]. apply index_step_tie.
      destruct S1 as [-> _]. rewrite global_index_exact by assumption. exact Hb. }
    assert (S3 : same_vid w (index_step buf p 2 (index_step buf p 1
                                                   (index_step buf p 0 w0)))).
    { eapply same_vid_trans; [exact S2 |]. apply index_step_tie.
      destruct S2 as [-> _]. rewrite global_index_exact by assumption. exact Hc. }
    eapply same_vid_trans; [exact S3 | apply with_out_vid]. }
  exact S.
Qed.

Lemma convert_polygon_indices_witness :
  exists w',
    convert_polygon minimal_segment 72 (block_world 100)
    = Ret (negb (error (out w'))) w'
    /\ text (out w') = ("f 1 2 3" ++ nl)%string
    /\ vid w' = {| vert_max := 3; prev_vert_max := 1 |}.
Proof.
  destruct (convert_polygon_indices minimal_segment 72 (block_world 100))
    as (w' & E & Ho & Hp & Hv & _).
  - unfold in_buf. rewrite minimal_segment_length. vm_compute. intuition discriminate.
  - unfold in_buf. rewrite minimal_segment_length. vm_compute. intuition discriminate.
  - vm_compute. discriminate.
  - vm_compute. reflexivity.
  - exists w'. split; [exact E |]. split.
    + rewrite Ho. vm_compute. reflexivity.
    + destruct (vid w') as [vm pv]. cbn in Hp, Hv. subst. vm_compute. reflexivity.
Defined.

(** ** C3 *)




(** ** C4 *)

(** C4, as stated, fails on a block without triangle records: after its
    records [vert_max] is still the value it had on entry, and no triangle
    refers to any index, so it is not the maximum of the indices referred
    to.  Block 0 of the all-zero segment is such a block. *)
Lemma empty_block_no_max :
  num_polys_at zero_segment 0 = 0%nat
  /\ result (convert_block_records (byte_at zero_segment 0) (byte_at zero_segment 1)
               0 0 zero_segment 4 (block_world 100)) = Some true
  /\ vert_max (vid (final (convert_block_records (byte_at zero_segment 0)
                             (byte_at zero_segment 1) 0 0 zero_segment 4
                             (block_world 100)))) = 1
  /\ ~ is_max_of 1 (block_refs 1 zero_segment 4 (num_polys_at zero_segment 0)).
Proof.
  split; [vm_compute; reflexivity |].
  split; [vm_compute; reflexivity |].
  split; [vm_compute; reflexivity |].
  intros [H _]. revert H. vm_compute. tauto.
Qed.

(** C4, amended. When both record loops of a block have run to their end
    ([res] is still 1 just before the padding step), and the block has at
    least one triangle record, [vert_max] is the maximum of the global
    indices its triangle records refer to, each of them the value of
    [vert_max] on entry plus a local index byte; for a block without
    triangle records [vert_max] is the value on entry. *)
Theorem block_vert_max (np nv x z : Z) (buf : list byte) (p : Z) (w w1 : world) :
  convert_block_records np nv x z buf p w = Ret true w1 ->
  0 <= vert_max (vid w) -> vert_max (vid w) + 255 < 2 ^ 64 ->
  let base := vert_max (vid w) in
  let refs := block_refs base buf p (Z.to_nat np) in
  (Z.to_nat np <> O -> is_max_of (vert_max (vid w1)) refs)
  /\ (Z.to_nat np = O -> vert_max (vid w1) = base)
  /\ (forall k i, (k < Z.to_nat np)%nat -> 0 <= i < 3 ->
      In (base + byte_at buf (p + POLYGON_SIZE * Z.of_nat k + i)) refs)
  /\ (forall v, In v refs -> base <= v <= base + 255).
Proof.
  intros H H0 Hov base refs.
  apply convert_block_records_ret in H. destruct H as [-> _].
  unfold records_world.
  destruct (verts_world_vid (Z.to_nat nv) x z buf
              (p + POLYGON_SIZE * Z.of_nat (Z.to_nat np))
              (polys_world (Z.to_nat np) buf p (enter_block w))) as [-> _].
  rewrite polys_world_vert_max. cbn [enter_block with_vid vid prev_vert_max vert_max].
  fold base. fold refs.
  assert (Hlow : forall v, In v refs -> base <= v <= base + 255).
  { intros v Hv. now apply (block_refs_lower base buf p (Z.to_nat np)). }
  destruct (fold_bump_spec refs base) as (H1 & H2 & H3). cbv zeta in H1, H2, H3.
  split; [| split; [| split; [| exact Hlow]]].
  - intros Hnp. split; [| exact H2].
    destruct H3 as [H3 | H3]; [| exact H3].
    rewrite H3. subst refs. destruct (Z.to_nat np) as [| n]; [congruence |].
    cbn [block_refs app]. left.
    assert (Hin : In (global_index base buf p 0)
                    (block_refs base buf p (S n))) by (now left).
    pose proof (H2 _ Hin). pose proof (Hlow _ Hin). lia.
  - intros Hnp. subst refs. now rewrite Hnp.
  - intros k i Hk Hi. subst refs. clear -Hk Hi H0 Hov.
    revert p k Hk. induction (Z.to_nat np) as [| n IH]; intros p k Hk; [lia |].
    cbn [block_refs]. destruct k as [| k].
    + rewrite Z.mul_0_r, Z.add_0_r. apply in_or_app. left.
      rewrite <- (global_index_exact base buf p i) by assumption.
      assert (i = 0 \/ i = 1 \/ i = 2) as [-> | [-> | ->]] by lia; cbn; tauto.
    + apply in_or_app. right.
      replace (p + POLYGON_SIZE * Z.of_nat (S k) + i)
        with (p + POLYGON_SIZE + POLYGON_SIZE * Z.of_nat k + i) by lia.
      apply IH. lia.
Qed.

Lemma block_vert_max_witness :
  is_max_of 3 (block_refs 1 minimal_segment 72 1).
Proof.
  destruct (block_vert_max 1 3 0 0 minimal_segment 72 (block_world 200)
              (records_world 1 3 0 0 minimal_segment 72 (block_world 200)))
    as (H & _).
  - vm_compute. reflexivity.
  - vm_compute. discriminate.
  - vm_compute. reflexivity.
  - cbv zeta in H. specialize (H ltac:(discriminate)).
    revert H. vm_compute. tauto.
Defined.

(** ** C5 *)

(** C5. In a block that has passed the offset check, the records are decoded
    with [prev_vert_max] equal to the value of [vert_max] on entry, and the
    block leaves [vert_max] exactly 1 above its value after the records,
    whatever the records were and whether or not they were all converted.
    Over a whole run of [convert_to_obj], from the initialisation on, every
    value the structure takes is at least the one before it in both fields
    and has [prev_vert_max <= vert_max] (and [vert_max] never comes near the
    wrap of its type). *)
Theorem vert_max_bookkeeping (pos x z : Z) (buf : list byte) (w w' : world)
    (r : bool) :
  0 <= pos < 16 -> SEGMENT_SIZE <= Z.of_nat (List.length buf) ->
  entry_offset buf pos <= BLOCK_OFFSET_MAX ->
  convert_block pos x z buf w = Ret r w' ->
  0 <= vert_max (vid w) -> vert_max (vid w) + 256 < 2 ^ 64 ->
  (exists w1,
     convert_block_records (byte_at buf (entry_offset buf pos))
       (byte_at buf (entry_offset buf pos + 1))
       (block_x pos x) (block_z pos z) buf (records_at buf pos) w = Ret r w1
     /\ prev_vert_max (vid w1) = vert_max (vid w)
     /\ vert_max (vid w) <= vert_max (vid w1)
     /\ vert_max (vid w') = vert_max (vid w1) + 1
     /\ prev_vert_max (vid w') = vert_max (vid w))
  /\ (forall start end_ w0,
        let wf := final (convert_to_obj start end_ w0) in
        stopped_early w0 wf
        \/ (ascending (history wf)
            /\ Forall (fun v => prev_vert_max v <= vert_max v) (history wf)
            /\ Forall (fun v => 1 <= prev_vert_max v /\ vert_max v <= 2 ^ 45)
                 (history wf))).
Proof.
  intros Hp Hl Hoff H H0 Hov. split.
  - rewrite convert_block_accepts in H by assumption.
    apply block_body_ret in H. destruct H as (w1 & E & ->).
    exists w1. split; [exact E |].
    pose proof (convert_block_records_bound (byte_at buf (entry_offset buf pos))
                  (byte_at buf (entry_offset buf pos + 1)) (block_x pos x)
                  (block_z pos z) buf (records_at buf pos) w H0 ltac:(lia)) as Hb.
    rewrite E in Hb. destruct Hb as [Hb1 Hb2]. cbn [final] in Hb1, Hb2.
    split; [exact Hb1 |]. split; [lia |].
    unfold leave_block. cbn [vid with_vid vert_max prev_vert_max].
    split; [apply ulong_small; lia | exact Hb1].
  - intros start end_ w0 wf.
    destruct (convert_to_obj_final start end_ w0) as [Hs | [Ha Hf]];
      [now left | right].
    fold wf in Ha, Hf. split; [exact Ha |].
    split; (eapply Forall_impl; [| exact Hf]); unfold state_ok; intros v Hv; lia.
Qed.

Lemma vert_max_bookkeeping_witness :
  let w := block_world 200 in
  let w1 := records_world 1 3 0 0 minimal_segment 72 w in
  convert_block 0 0 0 minimal_segment w = Ret true (leave_block w1)
  /\ vid w = {| vert_max := 1; prev_vert_max := 1 |}
  /\ vid w1 = {| vert_max := 3; prev_vert_max := 1 |}
  /\ vid (leave_block w1) = {| vert_max := 4; prev_vert_max := 1 |}.
Proof.
  cbv zeta.
  assert (E : convert_block 0 0 0 minimal_segment (block_world 200)
              = Ret true (leave_block (records_world 1 3 0 0 minimal_segment 72
                                         (block_world 200))))
    by (vm_compute; reflexivity).
  destruct (vert_max_bookkeeping 0 0 0 minimal_segment (block_world 200) _ true
              ltac:(lia)
              ltac:(rewrite minimal_segment_length; lia)
              ltac:(vm_compute; discriminate)
              E
              ltac:(vm_compute; discriminate)
              ltac:(vm_compute; reflexivity))
    as [(w1 & _ & _ & _ & Hv & Hq) _].
  split; [exact E |]. split; [reflexivity |].
  split; vm_compute; reflexivity.
Defined.

(** ** C6 *)



(** ** C7 *)

Lemma entry_offset_of_le32 buf pos :
  0 <= pos < 16 -> le32_at buf (4 + pos * 4) <= BLOCK_OFFSET_MAX ->
  entry_offset buf pos = le32_at buf (4 + pos * 4).
Proof.
  intros Hp Hle. apply entry_offset_le32; [assumption |].
  pose proof (entry_offset_check buf pos Hp) as Hc.
  destruct (Z.gtb_spec (entry_offset buf pos) BLOCK_OFFSET_MAX);
    destruct (Z.gtb_spec (le32_at buf (4 + pos * 4)) BLOCK_OFFSET_MAX);
    try discriminate; lia.
Qed.

(** Records inside the buffer and a device with room: the block converts. *)
Lemma block_body_in pos x z buf w :
  records_at buf pos + POLYGON_SIZE * Z.of_nat (num_polys_at buf pos)
    + VERTEX_SIZE * Z.of_nat (num_verts_at buf pos) <= Z.of_nat (List.length buf) ->
  error (out (records_world (num_polys_at buf pos) (num_verts_at buf pos)
                (block_x pos x) (block_z pos z) buf (records_at buf pos) w)) = false ->
  block_body pos x z buf w
  = Ret true (leave_block (records_world (num_polys_at buf pos) (num_verts_at buf pos)
                             (block_x pos x) (block_z pos z) buf (records_at buf pos) w)).
Proof.
  intros Hlen Herr.
  pose proof (entry_offset_nonneg buf pos) as Hnn.
  assert (Hp0 : 0 <= records_at buf pos)
    by (unfold records_at, BLOCK_HEADER_SIZE; lia).
  unfold block_body. cbv zeta. fold (records_at buf pos).
  unfold bind at 1. unfold convert_block_records.
  unfold bind at 1. unfold get_vid at 1.
  unfold bind at 1. unfold set_prev_vert_max at 1.
  fold (enter_block w). fold (num_polys_at buf pos). fold (num_verts_at buf pos).
  unfold records_world in Herr.
  assert (Herr1 : error (out (polys_world (num_polys_at buf pos) buf
                                (records_at buf pos) (enter_block w))) = false).
  { rewrite verts_world_out in Herr. now apply write_error_sticky in Herr. }
  unfold bind at 1.
  rewrite polygons_loop_in; [| assumption | unfold VERTEX_SIZE in Hlen; lia | assumption].
  unfold bind at 1.
  rewrite vertices_loop_in;
    [| unfold POLYGON_SIZE; lia | unfold VERTEX_SIZE in *; lia | assumption].
  reflexivity.
Qed.

Lemma empty_block_converts pos x z seg w :
  0 <= pos < 16 -> Z.of_nat (List.length seg) = SEGMENT_SIZE ->
  empty_block seg pos -> error (out w) = false ->
  convert_block pos x z seg w = Ret true (leave_block (enter_block w)).
Proof.
  intros Hp Hl (Hle & Hnp & Hnv) Herr.
  pose proof (entry_offset_of_le32 seg pos Hp Hle) as Eo.
  assert (Enp : num_polys_at seg pos = O)
    by (unfold num_polys_at; now rewrite Eo, Hnp).
  assert (Env : num_verts_at seg pos = O)
    by (unfold num_verts_at; now rewrite Eo, Hnv).
  rewrite convert_block_accepts by (assumption || lia).
  rewrite block_body_in; rewrite Enp, Env.
  - reflexivity.
  - unfold records_at, BLOCK_HEADER_SIZE. rewrite Eo.
    change BLOCK_OFFSET_MAX with 34560 in Hle. change SEGMENT_SIZE with 36864 in Hl.
    lia.
  - exact Herr.
Qed.

Lemma blocks_loop_empty n i x z seg w :
  0 <= i -> i + Z.of_nat n <= 16 -> Z.of_nat (List.length seg) = SEGMENT_SIZE ->
  (forall pos, i <= pos < i + Z.of_nat n -> empty_block seg pos) ->
  error (out w) = false ->
  exists w', blocks_loop n i true x z seg w = Ret true w' /\ out w' = out w.
Proof.
  revert i w. induction n as [| n IH]; intros i w Hi Hn Hl He Herr.
  - exists w. now split.
  - cbn [blocks_loop]. unfold bind.
    rewrite empty_block_converts; [| lia | assumption | apply He; lia | assumption].
    rewrite uint_small by lia.
    destruct (IH (i + 1) (leave_block (enter_block w))) as (w' & E & Ho);
      [lia | lia | assumption | intros pos Hpos; apply He; lia | exact Herr |].
    exists w'. split; [exact E | exact Ho].
Qed.

Lemma raw16_range seg p : 0 <= raw16 seg p <= 65535.
Proof.
  unfold raw16. pose proof (byte_at_range seg p).
  pose proof (byte_at_range seg (p + 1)). lia.
Qed.

Lemma vertex_text_origin seg p : vertex_text 0 0 seg p = scaled_vertex seg p.
Proof.
  unfold vertex_text, scaled_vertex, le16_at.
  rewrite !le16_value by apply byte_at_range.
  fold (raw16 seg p). fold (raw16 seg (p + 2)). fold (raw16 seg (p + 4)).
  rewrite !Z.add_0_l.
  pose proof (limit_within_bounds_range _ (raw16_range seg p)).
  pose proof (limit_within_bounds_range _ (raw16_range seg (p + 4))).
  rewrite !ulong_small by lia. reflexivity.
Qed.

Lemma minimal_block_text seg off :
  minimal_layout seg off ->
  block_text 1 0 0 seg (off + 4) 1 3 = minimal_output seg off.
Proof.
  intros (_ & _ & _ & _ & _ & H4 & H5 & H6 & _).
  unfold block_text, minimal_output.
  cbn [faces_text verts_text]. rewrite !vertex_text_origin.
  unfold face_text, global_index.
  replace (off + 4 + 0) with (off + 4) by lia.
  replace (off + 4 + 1) with (off + 5) by lia.
  replace (off + 4 + 2) with (off + 6) by lia.
  rewrite H4, H5, H6.
  change POLYGON_SIZE with 16. change VERTEX_SIZE with 8.
  replace (off + 4 + 16 * Z.of_nat 1) with (off + 20) by lia.
  replace (off + 20 + 8) with (off + 28) by lia.
  replace (off + 28 + 8) with (off + 36) by lia.
  rewrite !append_nil_r. rewrite !append_assoc. reflexivity.
Qed.

Lemma minimal_block_converts seg off w :
  minimal_layout seg off ->
  vid w = initial_vid ->
  text (out w) = ""%string -> error (out w) = false ->
  (String.length (minimal_output seg off) <= room (out w))%nat ->
  exists w',
    convert_block 0 0 0 seg w = Ret true w'
    /\ text (out w') = minimal_output seg off
    /\ error (out w') = false.
Proof.
  intros HL Hv Ht He Hr.
  pose proof (minimal_block_text seg off HL) as Hbt.
  destruct HL as (Hl & Hoff & Hle & Hnp & Hnv & _).
  assert (Eo : entry_offset seg 0 = off).
  { pose proof (entry_offset_of_le32 seg 0 ltac:(lia)) as H.
    change (4 + 0 * 4) with 4 in H. rewrite Hoff in H. now apply H. }
  assert (Enp : num_polys_at seg 0 = 1%nat)
    by (unfold num_polys_at; now rewrite Eo, Hnp).
  assert (Env : num_verts_at seg 0 = 3%nat)
    by (unfold num_verts_at; now rewrite Eo, Hnv).
  assert (Er : records_at seg 0 = off + 4)
    by (unfold records_at; now rewrite Eo).
  assert (Eout : out (records_world 1 3 (block_x 0 0) (block_z 0 0) seg (off + 4) w)
                 = {| text := minimal_output seg off;
                      room := room (out w) - String.length (minimal_output seg off);
                      error := false |}).
  { rewrite records_world_out, Hv.
    change (vert_max initial_vid) with 1.
    change (block_x 0 0) with 0. change (block_z 0 0) with 0.
    rewrite Hbt, write_fits by assumption. rewrite Ht, He. reflexivity. }
  pose proof (block_body_in 0 0 0 seg w) as HB.
  rewrite Enp, Env, Er in HB.
  exists (leave_block (records_world 1 3 (block_x 0 0) (block_z 0 0) seg (off + 4) w)).
  split; [| split].
  - rewrite convert_block_accepts; [| lia | lia | rewrite Eo; exact Hle].
    apply HB.
    + change POLYGON_SIZE with 16. change VERTEX_SIZE with 8.
      change BLOCK_OFFSET_MAX with 34560 in Hle. change SEGMENT_SIZE with 36864 in Hl.
      lia.
    + rewrite Eout. reflexivity.
  - rewrite leave_block_out, Eout. reflexivity.
  - rewrite leave_block_out, Eout. reflexivity.
Qed.

Lemma blocks_loop_S n i x z buf w :
  blocks_loop (S n) i true x z buf w
  = (r <- convert_block i x z buf ;; blocks_loop n (uint (i + 1)) r x z buf) w.
Proof. reflexivity. Qed.

(** C7. A file of one segment with the minimal layout, on a positionable
    input and an output device with room, converts with result 1 to exactly
    the face line [f 1 2 3] followed by the three vertex lines of the folded
    raw coordinates, scaled by 0.001 on three decimals. *)
Theorem minimal_segment_decodes (seg : list byte) (off : Z) (w : world) :
  minimal_layout seg off ->
  content (inp w) = seg -> seekable (inp w) = true -> heap_ok w = true ->
  text (out w) = ""%string -> error (out w) = false ->
  (String.length (minimal_output seg off) <= room (out w))%nat ->
  exists w',
    convert_to_obj 0 0 w = Ret true w'
    /\ text (out w')
       = ("f 1 2 3" ++ nl
          ++ scaled_vertex seg (off + 20) ++ scaled_vertex seg (off + 28)
          ++ scaled_vertex seg (off + 36))%string.
Proof.
  intros HL Hc Hs Hh Ht He Hr.
  assert (Hl : Z.of_nat (List.length seg) = SEGMENT_SIZE) by apply HL.
  unfold convert_to_obj. unfold bind at 1. unfold fseek.
  rewrite Hs. change (slong (ulong (0 * SEGMENT_SIZE))) with 0.
  cbn [andb Z.leb Z.compare]. cbv iota beta.
  unfold bind at 1. unfold malloc at 1. cbn [heap_ok with_inp]. rewrite Hh.
  cbn [negb]. unfold bind at 1. unfold init_vid at 1.
  change (segment_count 0 0) with 1%nat.
  change (if negb (0 / SEGMENTS_PER_ROW =? 0 / SEGMENTS_PER_ROW)
          then 0 mod SEGMENTS_PER_ROW else 0) with 0.
  cbn [segments_loop]. unfold bind at 1.
  unfold convert_segment. unfold bind at 1. unfold fread_segment.
  cbn [inp with_inp fpos content eof out stderr heap_ok vid vid_log].
  change (Z.to_nat 0) with O. cbn [skipn]. rewrite Hc, Hl.
  rewrite Z.leb_refl. rewrite firstn_all2 by lia.
  change (Z.to_nat BLOCKS_PER_SEGMENT) with 16%nat.
  change (segment_x 0) with 0. change (segment_z 0) with 0.
  rewrite blocks_loop_S. unfold bind at 1.
  match goal with |- context [convert_block 0 0 0 seg ?u] => set (w1 := u) end.
  destruct (minimal_block_converts seg off w1 HL) as (w2 & E2 & Ht2 & He2);
    [reflexivity | exact Ht | exact He | exact Hr |].
  rewrite E2. change (uint (0 + 1)) with 1.
  destruct (blocks_loop_empty 15 1 0 0 seg w2) as (w3 & E3 & Ho3);
    [lia | lia | exact Hl | intros pos Hpos; apply HL; lia | exact He2 |].
  rewrite E3. exists w3. split; [reflexivity |].
  rewrite Ho3. exact Ht2.
Qed.

Lemma minimal_segment_decodes_witness :
  result (convert_to_obj 0 0 (run_world minimal_segment 100)) = Some true
  /\ text (out (final (convert_to_obj 0 0 (run_world minimal_segment 100))))
     = ("f 1 2 3" ++ nl ++ "v 0.001 0.002 0.003" ++ nl
        ++ "v 1.000 0.001 2.048" ++ nl ++ "v 63.487 32.768 0.002" ++ nl)%string.
Proof.
  destruct (minimal_segment_decodes minimal_segment 68 (run_world minimal_segment 100))
    as (w' & E & Ht).
  - split; [apply minimal_segment_length |].
    split; [vm_compute; reflexivity |].
    split; [vm_compute; discriminate |].
    do 5 (split; [vm_compute; reflexivity |]).
    intros pos Hpos.
    assert (pos = 1 \/ pos = 2 \/ pos = 3 \/ pos = 4 \/ pos = 5 \/ pos = 6
            \/ pos = 7 \/ pos = 8 \/ pos = 9 \/ pos = 10 \/ pos = 11 \/ pos = 12
            \/ pos = 13 \/ pos = 14 \/ pos = 15) as Hcase by lia.
    repeat (destruct Hcase as [-> | Hcase]);
      try subst pos;
      (split; [vm_compute; discriminate | split; vm_compute; reflexivity]).
  - reflexivity.
  - reflexivity.
  - reflexivity.
  - reflexivity.
  - reflexivity.
  - vm_compute. lia.
  - rewrite E. cbn [result final]. split; [reflexivity |].
    rewrite Ht. vm_compute. reflexivity.
Defined.

(** ** C8 *)

(** C8. Neither count is checked against the segment.  A block whose table
    entry passes the offset check (34560, the largest offset let through)
    and whose header announces 255 triangles makes the triangle loop read
    byte 36868 of the 36864-byte buffer; with 143 triangles and 2 vertices
    it is the vertex loop that reads byte 36864. *)
Theorem records_overrun :
  BLOCK_SIZE < BLOCK_HEADER_SIZE + 255 * POLYGON_SIZE + 255 * VERTEX_SIZE
  /\ (exists buf pos idx,
        Z.of_nat (List.length buf) = SEGMENT_SIZE
        /\ 0 <= pos < 16
        /\ le32_at buf (4 + pos * 4) <= SEGMENT_SIZE - BLOCK_SIZE
        /\ num_polys_at buf pos = 255%nat
        /\ undefined_at (convert_block pos 0 0 buf (block_world 4000)) = Some idx
        /\ SEGMENT_SIZE <= idx
        /\ idx = records_at buf pos + POLYGON_SIZE * 144)
  /\ (exists buf pos idx,
        Z.of_nat (List.length buf) = SEGMENT_SIZE
        /\ 0 <= pos < 16
        /\ le32_at buf (4 + pos * 4) <= SEGMENT_SIZE - BLOCK_SIZE
        /\ num_polys_at buf pos = 143%nat /\ num_verts_at buf pos = 2%nat
        /\ undefined_at (convert_block pos 0 0 buf (block_world 4000)) = Some idx
        /\ SEGMENT_SIZE <= idx
        /\ idx = records_at buf pos + POLYGON_SIZE * 143 + VERTEX_SIZE * 1 + 4).
Proof.
  split; [reflexivity |]. split.
  - exists (segment_last 255 255), 0, 36868.
    split; [vm_compute; reflexivity |].
    split; [lia |].
    split; [vm_compute; discriminate |].
    split; [vm_compute; reflexivity |].
    split; [vm_compute; reflexivity |].
    split; [vm_compute; discriminate | vm_compute; reflexivity].
  - exists (segment_last 143 2), 0, 36864.
    split; [vm_compute; reflexivity |].
    split; [lia |].
    split; [vm_compute; discriminate |].
    split; [vm_compute; reflexivity |].
    split; [vm_compute; reflexivity |].
    split; [vm_compute; reflexivity |].
    split; [vm_compute; discriminate | vm_compute; reflexivity].
Qed.

(** ** C9 *)

(** C9. The line of a vertex record carries the world offset in its first
    and third coordinate only: the second is the folded raw value alone,
    scaled. *)
Theorem vertex_line (x z : Z) (buf : list byte) (p : Z) (w : world) :
  in_buf buf p -> in_buf buf (p + 5) ->
  let rx := byte_at buf p + 256 * byte_at buf (p + 1) in
  let ry := byte_at buf (p + 2) + 256 * byte_at buf (p + 3) in
  let rz := byte_at buf (p + 4) + 256 * byte_at buf (p + 5) in
  exists w',
    convert_vertex x z buf p w = Ret (negb (error (out w'))) w'
    /\ out w' = write ("v " ++ fixed3 (ulong (x + limit_within_bounds rx))
                        ++ " " ++ fixed3 (limit_within_bounds ry)
                        ++ " " ++ fixed3 (ulong (z + limit_within_bounds rz))
                        ++ nl) (out w)
    /\ vid w' = vid w.
Proof.
  intros H0 H5 rx ry rz. exists (vertex_world x z buf p w).
  split; [now apply convert_vertex_in |].
  split; [| reflexivity].
  unfold vertex_world, vertex_text, le16_at. cbn [out with_out].
  rewrite !le16_value by apply byte_at_range.
  replace (p + 2 + 1) with (p + 3) by lia.
  replace (p + 4 + 1) with (p + 5) by lia.
  reflexivity.
Qed.

Lemma vertex_line_witness :
  text (out (final (convert_vertex 8192 4096 minimal_segment 104 (block_world 100))))
  = ("v 71.679 32.768 4.098" ++ nl)%string.
Proof.
  destruct (vertex_line 8192 4096 minimal_segment 104 (block_world 100))
    as (w' & E & Ho & _).
  - unfold in_buf. rewrite minimal_segment_length. vm_compute. intuition discriminate.
  - unfold in_buf. rewrite minimal_segment_length. vm_compute. intuition discriminate.
  - rewrite E. cbn [final]. rewrite Ho. vm_compute. reflexivity.
Defined.

(** ** C10 *)





(** * Further properties *)

(** ** The fold, read as a magnitude *)

(** X1. The fold of a raw 16-bit value is the magnitude of its signed
    reading whenever that magnitude is at most 2048, so a displacement and
    its opposite fold to the same value; the raw values in between, 2049 to
    63487, are mirrored onto themselves. *)
Theorem limit_within_bounds_magnitude (v : Z) :
  0 <= v <= 65535 ->
  (Z.abs (signed16 v) <= 2048 -> limit_within_bounds v = Z.abs (signed16 v))
  /\ (2048 < Z.abs (signed16 v) ->
      limit_within_bounds v = 65536 - v /\ 2048 < limit_within_bounds v < 63488)
  /\ (1 <= v <= 2048 ->
      limit_within_bounds (65536 - v) = limit_within_bounds v).
Proof.
  intros Hv. assert (HB : BLOCK_BOUNDS = 2048) by reflexivity.
  unfold signed16. change (2 ^ 15) with 32768. change (2 ^ 16) with 65536.
  destruct (Z.ltb_spec v 32768) as [Hlo | Hhi].
  - rewrite Z.abs_eq by lia. split; [| split].
    + intros H. apply limit_within_bounds_low. lia.
    + intros H. rewrite limit_within_bounds_high by lia. lia.
    + intros H. rewrite limit_within_bounds_high by lia.
      rewrite limit_within_bounds_low by lia. lia.
  - rewrite Z.abs_neq by lia. split; [| split].
    + intros H. rewrite limit_within_bounds_high by lia. lia.
    + intros H. rewrite limit_within_bounds_high by lia. lia.
    + intros H. lia.
Qed.

Lemma limit_within_bounds_magnitude_witness :
  limit_within_bounds 65526 = 10 /\ limit_within_bounds 10 = 10.
Proof.
  destruct (limit_within_bounds_magnitude 65526) as (H1 & _ & _); [lia |].
  destruct (limit_within_bounds_magnitude 10) as (H2 & _ & _); [lia |].
  split; [apply H1 | apply H2]; vm_compute; discriminate.
Defined.

(** ** The indices of a block are fresh *)

(** X2. In a block that converts, every global index its triangle records
    refer to lies between the value of [vert_max] on entry (included) and
    its value on exit (excluded): the indices of a block are never reached
    by the numbering of a later block. *)
Theorem block_indices_fresh (pos x z : Z) (buf : list byte) (w w' : world) :
  0 <= pos < 16 -> SEGMENT_SIZE <= Z.of_nat (List.length buf) ->
  convert_block pos x z buf w = Ret true w' ->
  0 <= vert_max (vid w) -> vert_max (vid w) + 256 < 2 ^ 64 ->
  vert_max (vid w) < vert_max (vid w')
  /\ prev_vert_max (vid w') = vert_max (vid w)
  /\ forall v,
       In v (block_refs (vert_max (vid w)) buf (records_at buf pos)
               (num_polys_at buf pos)) ->
       vert_max (vid w) <= v < vert_max (vid w').
Proof.
  intros Hp Hl H H0 Hov.
  apply convert_block_true in H; [| assumption | assumption].
  destruct H as [_ H]. apply block_body_true in H. destruct H as [-> _].
  unfold leave_block. cbn [vid with_vid vert_max prev_vert_max].
  unfold records_world.
  destruct (verts_world_vid (num_verts_at buf pos) (block_x pos x) (block_z pos z) buf
              (records_at buf pos + POLYGON_SIZE * Z.of_nat (num_polys_at buf pos))
              (polys_world (num_polys_at buf pos) buf (records_at buf pos)
                 (enter_block w))) as [-> _].
  rewrite polys_world_vert_max, polys_world_prev.
  cbn [enter_block with_vid vid prev_vert_max vert_max].
  set (refs := block_refs (vert_max (vid w)) buf (records_at buf pos)
                 (num_polys_at buf pos)).
  destruct (fold_bump_spec refs (vert_max (vid w))) as (H1 & H2 & H3).
  cbv zeta in H1, H2, H3.
  assert (Hlow : forall v, In v refs -> vert_max (vid w) <= v <= vert_max (vid w) + 255).
  { intros v Hv. apply (block_refs_lower _ buf (records_at buf pos)
                          (num_polys_at buf pos)); [lia | lia | exact Hv]. }
  assert (Hr : fold_left bump refs (vert_max (vid w)) <= vert_max (vid w) + 255).
  { destruct H3 as [-> | H3]; [lia | apply Hlow in H3; lia]. }
  rewrite ulong_small by lia.
  split; [lia |]. split; [reflexivity |].
  intros v Hv. pose proof (H2 v Hv). pose proof (Hlow v Hv). lia.
Qed.

Lemma block_indices_fresh_witness :
  block_refs 1 minimal_segment 72 1 = [1; 2; 3]
  /\ 1 <= 3
     < vert_max (vid (leave_block (records_world 1 3 0 0 minimal_segment 72
                                     (block_world 200)))).
Proof.
  assert (E : convert_block 0 0 0 minimal_segment (block_world 200)
              = Ret true (leave_block (records_world 1 3 0 0 minimal_segment 72
                                         (block_world 200))))
    by (vm_compute; reflexivity).
  destruct (block_indices_fresh 0 0 0 minimal_segment (block_world 200) _
              ltac:(lia) ltac:(rewrite minimal_segment_length; lia) E
              ltac:(vm_compute; discriminate) ltac:(vm_compute; reflexivity))
    as (_ & _ & H).
  split; [vm_compute; reflexivity |].
  apply (H 3). vm_compute. tauto.
Defined.

(** ** What a run does to the streams *)

(** A relation between worlds that is reflexive and transitive and that
    every elementary effect of the program respects holds between the world
    a function starts in and the world it ends in, however it ends. *)
Section RunRelation.

Variable Rel : world -> world -> Prop.
Hypothesis Rel_refl : forall w, Rel w w.
Hypothesis Rel_trans : forall a b c, Rel a b -> Rel b c -> Rel a c.
Hypothesis Rel_out : forall s w, Rel w (with_out (write s (out w)) w).
Hypothesis Rel_vid : forall v w, Rel w (with_vid v w).
Hypothesis Rel_stderr : forall s w, Rel w (with_stderr (stderr w ++ [s]) w).
Hypothesis Rel_inp :
  forall f w, content f = content (inp w) -> seekable f = seekable (inp w) ->
              Rel w (with_inp f w).
Hypothesis Rel_init :
  forall v w, Rel w {| vid := v; vid_log := []; out := out w; inp := inp w;
                       stderr := stderr w; heap_ok := heap_ok w |}.

Lemma index_step_rel buf p i w : Rel w (index_step buf p i w).
Proof.
  unfold index_step. cbv zeta.
  destruct (_ >? _); [| apply Rel_out].
  eapply Rel_trans; [apply Rel_out | apply Rel_vid].
Qed.

Lemma polygon_indices_rel n i buf p w :
  Rel w (final (polygon_indices n i buf p w)).
Proof.
  revert i w. induction n as [| n IH]; intros i w; [apply Rel_refl |].
  destruct (in_buf_dec buf (p + i)) as [Hi | Hi].
  - rewrite polygon_index_in by assumption.
    eapply Rel_trans; [apply index_step_rel | apply IH].
  - cbn [polygon_indices]. unfold bind at 1. unfold get_vid at 1.
    rewrite bind_rd_out by assumption. apply Rel_refl.
Qed.

Lemma convert_polygon_rel buf p w : Rel w (final (convert_polygon buf p w)).
Proof.
  unfold convert_polygon.
  unfold bind at 1. unfold fwrite at 1. unfold bind at 1.
  set (w0 := with_out (write "f" (out w)) w).
  assert (H0 : Rel w w0) by apply Rel_out.
  pose proof (polygon_indices_rel (Z.to_nat VERTICES_PER_POLYGON) 0 buf p w0) as H.
  destruct (polygon_indices _ 0 buf p w0) as [a w1 | j w1]; cbn [final] in H.
  - unfold bind, fwrite, ferror, ret. cbn [final].
    eapply Rel_trans; [exact H0 |]. eapply Rel_trans; [exact H |]. apply Rel_out.
  - cbn [final]. eapply Rel_trans; eassumption.
Qed.

Lemma polygons_loop_rel n res buf p w :
  Rel w (final (polygons_loop n res buf p w)).
Proof.
  revert res p w. induction n as [| n IH]; intros res p w; [apply Rel_refl |].
  cbn [polygons_loop]. destruct res; [| apply Rel_refl].
  unfold bind. pose proof (convert_polygon_rel buf p w) as H.
  destruct (convert_polygon buf p w) as [r w1 | j w1]; [| exact H].
  eapply Rel_trans; [exact H | apply IH].
Qed.

Lemma convert_vertex_rel x z buf p w :
  Rel w (final (convert_vertex x z buf p w)).
Proof.
  unfold convert_vertex, bind, rd, fwrite, ferror, ret.
  repeat match goal with
         | |- context [if ?c then _ else _] => destruct c
         end; cbn [final]; first [apply Rel_refl | apply Rel_out].
Qed.

Lemma vertices_loop_rel n res x z buf p w :
  Rel w (final (vertices_loop n res x z buf p w)).
Proof.
  revert res p w. induction n as [| n IH]; intros res p w; [apply Rel_refl |].
  cbn [vertices_loop]. destruct res; [| apply Rel_refl].
  unfold bind. pose proof (convert_vertex_rel x z buf p w) as H.
  destruct (convert_vertex x z buf p w) as [r w1 | j w1]; [| exact H].
  eapply Rel_trans; [exact H | apply IH].
Qed.

Lemma convert_block_records_rel np nv x z buf p w :
  Rel w (final (convert_block_records np nv x z buf p w)).
Proof.
  unfold convert_block_records.
  unfold bind at 1. unfold get_vid at 1.
  unfold bind at 1. unfold set_prev_vert_max at 1.
  fold (enter_block w). unfold bind at 1.
  assert (H0 : Rel w (enter_block w)) by apply Rel_vid.
  pose proof (polygons_loop_rel (Z.to_nat np) true buf p (enter_block w)) as H.
  destruct (polygons_loop _ true buf p (enter_block w)) as [[r1 p1] w1 | j w1];
    cbn [final] in H; [| cbn [final]; eapply Rel_trans; eassumption].
  unfold bind.
  pose proof (vertices_loop_rel (Z.to_nat nv) r1 x z buf p1 w1) as Hv.
  destruct (vertices_loop _ r1 x z buf p1 w1) as [[r2 p2] w2 | j w2];
    cbn [final] in Hv |- *;
    (eapply Rel_trans; [exact H0 |]); eapply Rel_trans; eassumption.
Qed.

Lemma convert_block_rel pos x z buf w :
  Rel w (final (convert_block pos x z buf w)).
Proof.
  unfold convert_block. cbv zeta.
  destruct (in_buf_dec buf (offset_loc pos));
    [rewrite bind_rd_in by assumption
    | rewrite bind_rd_out by assumption; apply Rel_refl].
  destruct (in_buf_dec buf (offset_loc pos + 1));
    [rewrite bind_rd_in by assumption
    | rewrite bind_rd_out by assumption; apply Rel_refl].
  destruct (in_buf_dec buf (offset_loc pos + 2));
    [rewrite bind_rd_in by assumption
    | rewrite bind_rd_out by assumption; apply Rel_refl].
  destruct (in_buf_dec buf (offset_loc pos + 3));
    [rewrite bind_rd_in by assumption
    | rewrite bind_rd_out by assumption; apply Rel_refl].
  destruct (_ >? BLOCK_OFFSET_MAX).
  - cbn. apply Rel_stderr.
  - match goal with |- context [rd buf ?q] => set (q0 := q) end.
    destruct (in_buf_dec buf q0);
      [rewrite bind_rd_in by assumption
      | rewrite bind_rd_out by assumption; apply Rel_refl].
    destruct (in_buf_dec buf (q0 + 1));
      [rewrite bind_rd_in by assumption
      | rewrite bind_rd_out by assumption; apply Rel_refl].
    unfold bind at 1.
    pose proof (convert_block_records_rel (byte_at buf q0) (byte_at buf (q0 + 1))
                  (block_x pos x) (block_z pos z) buf (q0 + BLOCK_HEADER_SIZE) w) as H.
    destruct (convert_block_records _ _ _ _ buf _ w) as [r w1 | j w1];
      cbn [final] in H; [| exact H].
    unfold bind. rewrite pad_vert_max_eq. cbn [final ret].
    eapply Rel_trans; [exact H | apply Rel_vid].
Qed.

Lemma blocks_loop_rel n i res x z buf w :
  Rel w (final (blocks_loop n i res x z buf w)).
Proof.
  revert i res w. induction n as [| n IH]; intros i res w; [apply Rel_refl |].
  cbn [blocks_loop]. destruct res; [| apply Rel_refl].
  unfold bind. pose proof (convert_block_rel i x z buf w) as H.
  destruct (convert_block i x z buf w) as [r w1 | j w1]; [| exact H].
  eapply Rel_trans; [exact H | apply IH].
Qed.

Lemma read_failed_rel w u :
  Rel w u ->
  Rel w (final ((_ <- eputs ("Read failed" ++ nl) ;;
                 at_end <- feof ;;
                 _ <- (if at_end then eputs ("EOF was reached" ++ nl) else ret tt) ;;
                 ret false) u)).
Proof.
  intros H. unfold bind, eputs, feof, ret. cbv beta iota.
  destruct (eof _); cbv beta iota; cbn [final].
  - eapply Rel_trans; [exact H |].
    eapply Rel_trans; [apply (Rel_stderr ("Read failed" ++ nl)%string u) |].
    apply Rel_stderr.
  - eapply Rel_trans; [exact H |]. apply Rel_stderr.
Qed.

Lemma convert_segment_rel pos w : Rel w (final (convert_segment pos w)).
Proof.
  unfold convert_segment, bind at 1, fread_segment.
  destruct (eof (inp w)); [apply read_failed_rel, Rel_refl |].
  destruct (SEGMENT_SIZE <=? _).
  - eapply Rel_trans; [| apply blocks_loop_rel]. now apply Rel_inp.
  - apply read_failed_rel. now apply Rel_inp.
Qed.

Lemma segments_loop_rel n j res w : Rel w (final (segments_loop n j res w)).
Proof.
  revert j res w. induction n as [| n IH]; intros j res w; [apply Rel_refl |].
  cbn [segments_loop]. destruct res; [| apply Rel_refl].
  unfold bind. pose proof (convert_segment_rel j w) as H.
  destruct (convert_segment j w) as [r w1 | k w1]; [| exact H].
  eapply Rel_trans; [exact H | apply IH].
Qed.

Lemma convert_to_obj_rel start end_ w :
  Rel w (final (convert_to_obj start end_ w)).
Proof.
  unfold convert_to_obj, bind.
  destruct (fseek_cases (slong (ulong (start * SEGMENT_SIZE))) w) as [E | E];
    rewrite E; cbv iota beta.
  - unfold eputs, ret. cbn [final]. apply Rel_stderr.
  - assert (H0 : Rel w (seek_to (slong (ulong (start * SEGMENT_SIZE))) w))
      by (now apply Rel_inp).
    unfold malloc. destruct (heap_ok (seek_to _ w)); cbn [negb].
    + unfold init_vid.
      eapply Rel_trans; [exact H0 |].
      eapply Rel_trans; [apply Rel_init | apply segments_loop_rel].
    + unfold eputs, ret. cbn [final].
      eapply Rel_trans; [exact H0 | apply Rel_stderr].
Qed.

End RunRelation.

Lemma out_extends_same w w' : out w' = out w -> out_extends w w'.
Proof. intros H. exists ""%string. now rewrite write_empty. Qed.

Lemma stderr_extends_same w w' : stderr w' = stderr w -> stderr_extends w w'.
Proof. intros H. exists []. now rewrite app_nil_r. Qed.

Lemma out_extends_trans a b c : out_extends a b -> out_extends b c -> out_extends a c.
Proof.
  intros [s Hs] [t Ht]. exists (s ++ t)%string. now rewrite Ht, Hs, write_write.
Qed.

Lemma stderr_extends_trans a b c :
  stderr_extends a b -> stderr_extends b c -> stderr_extends a c.
Proof.
  intros [s Hs] [t Ht]. exists (s ++ t). now rewrite Ht, Hs, <- app_assoc.
Qed.

(** X3. Whatever the input and however the run ends, [convert_to_obj] only
    appends to the output stream (the text it had stays as a prefix, the
    error indicator is never cleared, the room never grows), only appends to
    [stderr], and leaves the input file as it is. *)
Theorem run_only_appends (start end_ : Z) (w : world) :
  let wf := final (convert_to_obj start end_ w) in
  (exists s, out wf = write s (out w))
  /\ (exists t, text (out wf) = (text (out w) ++ t)%string)
  /\ (room (out wf) <= room (out w))%nat
  /\ (error (out w) = true -> error (out wf) = true)
  /\ (exists l, stderr wf = stderr w ++ l)
  /\ content (inp wf) = content (inp w)
  /\ seekable (inp wf) = seekable (inp w).
Proof.
  intros wf.
  assert (Ho : out_extends w wf).
  { apply (convert_to_obj_rel out_extends).
    - intros u. now apply out_extends_same.
    - apply out_extends_trans.
    - intros s u. now exists s.
    - intros v u. now apply out_extends_same.
    - intros s u. now apply out_extends_same.
    - intros f u _ _. now apply out_extends_same.
    - intros v u. now apply out_extends_same. }
  assert (He : stderr_extends w wf).
  { apply (convert_to_obj_rel stderr_extends).
    - intros u. now apply stderr_extends_same.
    - apply stderr_extends_trans.
    - intros s u. now apply stderr_extends_same.
    - intros v u. now apply stderr_extends_same.
    - intros s u. now exists [s].
    - intros f u _ _. now apply stderr_extends_same.
    - intros v u. now apply stderr_extends_same. }
  assert (Hf : same_file w wf).
  { apply (convert_to_obj_rel same_file).
    - intros u. now repeat split.
    - intros a b c (H1 & H2 & H3) (H4 & H5 & H6). repeat split; congruence.
    - intros s u. now repeat split.
    - intros v u. now repeat split.
    - intros s u. now repeat split.
    - intros f u H1 H2. repeat split; assumption.
    - intros v u. now repeat split. }
  destruct Ho as [s Hs]. split; [now exists s |]. rewrite Hs.
  split; [now eexists |].
  split; [cbn; lia |].
  split; [intros H; cbn; now rewrite H |].
  split; [exact He |].
  destruct Hf as (H1 & H2 & _). now split.
Qed.

(** ** A run that succeeds *)

Lemma result_true {A} (o : outcome A) (a : A) :
  result o = Some a -> o = Ret a (final o).
Proof. destruct o; cbn; [now intros [= ->] | discriminate]. Qed.

Lemma convert_block_true_env pos x z buf w w' :
  convert_block pos x z buf w = Ret true w' -> same_env w w'.
Proof.
  unfold convert_block. cbv zeta.
  destruct (in_buf_dec buf (offset_loc pos));
    [rewrite bind_rd_in by assumption
    | rewrite bind_rd_out by assumption; discriminate].
  destruct (in_buf_dec buf (offset_loc pos + 1));
    [rewrite bind_rd_in by assumption
    | rewrite bind_rd_out by assumption; discriminate].
  destruct (in_buf_dec buf (offset_loc pos + 2));
    [rewrite bind_rd_in by assumption
    | rewrite bind_rd_out by assumption; discriminate].
  destruct (in_buf_dec buf (offset_loc pos + 3));
    [rewrite bind_rd_in by assumption
    | rewrite bind_rd_out by assumption; discriminate].
  destruct (_ >? BLOCK_OFFSET_MAX); [discriminate |].
  match goal with |- context [rd buf ?q] => set (q0 := q) end.
  destruct (in_buf_dec buf q0);
    [rewrite bind_rd_in by assumption
    | rewrite bind_rd_out by assumption; discriminate].
  destruct (in_buf_dec buf (q0 + 1));
    [rewrite bind_rd_in by assumption
    | rewrite bind_rd_out by assumption; discriminate].
  unfold bind at 1.
  pose proof (convert_block_records_env (byte_at buf q0) (byte_at buf (q0 + 1))
                (block_x pos x) (block_z pos z) buf (q0 + BLOCK_HEADER_SIZE) w) as H.
  destruct (convert_block_records _ _ _ _ buf _ w) as [r w1 | j w1];
    cbn [final] in H; [| discriminate].
  unfold bind. rewrite pad_vert_max_eq. unfold ret. intros E.
  apply Ret_inj in E. destruct E as [_ <-].
  eapply same_env_trans; [exact H |]. now repeat split.
Qed.

Lemma blocks_loop_true_env n i x z buf w w' :
  blocks_loop n i true x z buf w = Ret true w' -> same_env w w'.
Proof.
  revert i w. induction n as [| n IH]; intros i w H.
  - cbn in H. apply Ret_inj in H. destruct H as [_ <-]. apply same_env_refl.
  - cbn [blocks_loop] in H. unfold bind in H.
    destruct (convert_block i x z buf w) as [r w1 | j w1] eqn:E; [| discriminate].
    destruct r; [| rewrite blocks_loop_false in H; discriminate].
    eapply same_env_trans; [exact (convert_block_true_env _ _ _ _ _ _ E) |].
    exact (IH _ _ H).
Qed.

(** A segment that converts was read whole, and moved the position by its
    size. *)
Lemma convert_segment_true j w w' :
  convert_segment j w = Ret true w' -> 0 <= fpos (inp w) ->
  fpos (inp w) + SEGMENT_SIZE <= Z.of_nat (List.length (content (inp w)))
  /\ fpos (inp w') = fpos (inp w) + SEGMENT_SIZE
  /\ content (inp w') = content (inp w)
  /\ stderr w' = stderr w.
Proof.
  intros H Hpos.
  destruct (convert_segment_cases j w)
    as [(buf & w0 & _ & E & _ & _ & _ & Hs & _ & Hc & _ & Hf & Hlen)
       | (ae & w1 & E & _)];
    rewrite E in H; [| discriminate].
  apply blocks_loop_true_env in H. destruct H as (Hi & Hs' & _).
  rewrite Hi, Hs'.
  split; [now apply Hlen |]. split; [exact Hf |]. split; [exact Hc | exact Hs].
Qed.

Lemma segments_loop_true n j w w' :
  segments_loop n j true w = Ret true w' -> 0 <= fpos (inp w) ->
  fpos (inp w') = fpos (inp w) + SEGMENT_SIZE * Z.of_nat n
  /\ (n <> O -> fpos (inp w') <= Z.of_nat (List.length (content (inp w))))
  /\ content (inp w') = content (inp w)
  /\ stderr w' = stderr w.
Proof.
  revert j w. induction n as [| n IH]; intros j w H Hpos.
  - cbn in H. apply Ret_inj in H. destruct H as [_ <-].
    repeat split; [lia | congruence].
  - cbn [segments_loop] in H. unfold bind in H.
    destruct (convert_segment j w) as [r w1 | k w1] eqn:E; [| discriminate].
    destruct r; [| rewrite segments_loop_false in H; discriminate].
    destruct (convert_segment_true _ _ _ E Hpos) as (H1 & H2 & H3 & H4).
    assert (HS : SEGMENT_SIZE = 36864) by reflexivity.
    destruct (IH _ _ H ltac:(lia)) as (I1 & I2 & I3 & I4).
    rewrite I1, I3, I4, H2, H3, H4. rewrite I1, H2, H3 in I2.
    repeat split; [lia |].
    intros _. destruct n as [| n]; [lia | apply I2; discriminate].
Qed.

Lemma convert_to_obj_true (start end_ : Z) (w w' : world) :
  0 <= start <= end_ -> end_ <= SEGMENT_MAX ->
  convert_to_obj start end_ w = Ret true w' ->
  seekable (inp w) = true /\ heap_ok w = true
  /\ stderr w' = stderr w
  /\ fpos (inp w') = (end_ + 1) * SEGMENT_SIZE
  /\ (end_ + 1) * SEGMENT_SIZE <= Z.of_nat (List.length (content (inp w)))
  /\ content (inp w') = content (inp w).
Proof.
  intros Hr He H.
  assert (HM : SEGMENT_MAX = 834) by reflexivity.
  assert (HS : SEGMENT_SIZE = 36864) by reflexivity.
  assert (Hoff : slong (ulong (start * SEGMENT_SIZE)) = start * SEGMENT_SIZE).
  { rewrite ulong_small by lia. unfold slong. rewrite Z.mod_small; lia. }
  pose proof (segment_count_inclusive start end_ Hr ltac:(lia)) as Hn.
  unfold convert_to_obj, bind in H. rewrite Hoff in H. unfold fseek in H.
  destruct (seekable (inp w)) eqn:Es; [| cbn in H; discriminate].
  destruct (Z.leb_spec 0 (start * SEGMENT_SIZE)); [| lia].
  cbn [andb] in H. cbv iota beta in H.
  unfold malloc in H. cbn [heap_ok with_inp] in H.
  destruct (heap_ok w) eqn:Eh; [| cbn in H; discriminate].
  cbn [negb] in H. unfold init_vid in H.
  apply segments_loop_true in H; [| cbn; lia].
  destruct H as (H1 & H2 & H3 & H4).
  cbn [inp with_inp fpos content stderr] in H1, H2, H3, H4.
  rewrite Hn in H1.
  repeat split; try assumption.
  - lia.
  - assert (Hne : segment_count start end_ <> O) by lia.
    specialize (H2 Hne). lia.
Qed.

(** X4. A run over a valid range that returns 1 has written nothing to
    [stderr], has found the input positionable and the buffer allocated,
    and has read the segments [start] to [end] whole: the file holds at
    least [(end + 1) * SEGMENT_SIZE] bytes and the position ends there.  So
    a file that is too short for the range never converts with result 1. *)
Theorem successful_run (start end_ : Z) (w w' : world) :
  0 <= start <= end_ -> end_ <= SEGMENT_MAX ->
  convert_to_obj start end_ w = Ret true w' ->
  seekable (inp w) = true /\ heap_ok w = true
  /\ stderr w' = stderr w
  /\ fpos (inp w') = (end_ + 1) * SEGMENT_SIZE
  /\ (end_ + 1) * SEGMENT_SIZE <= Z.of_nat (List.length (content (inp w)))
  /\ content (inp w') = content (inp w).
Proof. apply convert_to_obj_true. Qed.

Lemma successful_run_witness :
  fpos (inp (final (convert_to_obj 0 0 (run_world minimal_segment 100))))
  = SEGMENT_SIZE.
Proof.
  destruct (successful_run 0 0 (run_world minimal_segment 100)
              (final (convert_to_obj 0 0 (run_world minimal_segment 100))))
    as (_ & _ & _ & H & _).
  - lia.
  - vm_compute. discriminate.
  - apply result_true. vm_compute. reflexivity.
  - exact H.
Defined.

(** ** The loop over the segments *)

Lemma uint_spec x : exists q, x = 2 ^ 32 * q + uint x /\ 0 <= uint x < 2 ^ 32.
Proof.
  exists (x / 2 ^ 32). split; [| apply uint_range].
  unfold uint. apply Z.div_mod. lia.
Qed.

Lemma uint_countdown i e :
  0 <= i < 2 ^ 32 -> 0 <= e < 2 ^ 32 -> i <> e ->
  uint (e - uint (i + 1)) = uint (e - i) - 1.
Proof.
  intros Hi He Hne.
  destruct (uint_spec (i + 1)) as (q1 & E1 & R1).
  destruct (uint_spec (e - i)) as (q2 & E2 & R2).
  destruct (uint_spec (e - uint (i + 1))) as (q3 & E3 & R3).
  lia.
Qed.

Lemma uint_zero_diff i e :
  0 <= i < 2 ^ 32 -> 0 <= e < 2 ^ 32 -> (uint (e - i) = 0 <-> i = e).
Proof.
  intros Hi He. destruct (uint_spec (e - i)) as (q & E & R). lia.
Qed.

Lemma segments_for_count n :
  forall fuel i e j res w,
    0 <= i < 2 ^ 32 -> 0 <= e < 2 ^ 32 ->
    n = Z.to_nat (uint (e - i)) -> (n <= fuel)%nat ->
    segments_for fuel i e j res w
    = match segments_loop n j res w with
      | Ret r w' => Ret (Some r) w'
      | Undef k w' => Undef k w'
      end.
Proof.
  induction n as [| n IH]; intros fuel i e j res w Hi He Hn Hf.
  - assert (i = e).
    { apply uint_zero_diff; [assumption | assumption |].
      pose proof (uint_range (e - i)). lia. }
    subst e. destruct fuel; cbn; rewrite Z.eqb_refl, andb_false_r; reflexivity.
  - assert (Hne : i <> e).
    { intros ->. rewrite Z.sub_diag in Hn. discriminate. }
    destruct fuel as [| fuel]; [lia |].
    cbn [segments_for segments_loop].
    destruct res; [| reflexivity].
    destruct (Z.eqb_spec i e); [contradiction |]. cbn [andb negb].
    unfold bind.
    destruct (convert_segment j w) as [r w1 | k w1]; [| reflexivity].
    apply IH; [apply uint_range | assumption | | lia].
    rewrite uint_countdown by assumption. lia.
Qed.

(** X5. The loop of [convert_to_obj], run with its own test [i != end] on
    the wrapping counter, ends within [(end + 1 - start) mod 2^32]
    iterations: with that much fuel or more it never runs out, and it does
    what the loop on the count does. *)
Theorem segments_for_terminates (start end_ j : Z) (fuel : nat) (w : world) :
  0 <= start < 2 ^ 32 -> (segment_count start end_ <= fuel)%nat ->
  segments_for fuel start (uint (end_ + 1)) j true w
  = match segments_loop (segment_count start end_) j true w with
    | Ret r w' => Ret (Some r) w'
    | Undef k w' => Undef k w'
    end.
Proof.
  intros Hs Hf. apply segments_for_count; [assumption | apply uint_range | | assumption].
  reflexivity.
Qed.

Lemma segments_for_terminates_witness :
  result (segments_for 1 0 (uint (0 + 1)) 0 true (run_world minimal_segment 100))
  = Some (Some true).
Proof.
  rewrite (segments_for_terminates 0 0 0 1 (run_world minimal_segment 100));
    [| lia | vm_compute; lia].
  assert (E : result (segments_loop (segment_count 0 0) 0 true
                        (run_world minimal_segment 100)) = Some true)
    by (vm_compute; reflexivity).
  apply result_true in E. rewrite E. reflexivity.
Defined.



(** ** The command line *)

Lemma digit_char d :
  0 <= d <= 9 ->
  digit_of (ascii_of_nat (48 + Z.to_nat d)) = Some d
  /\ is_space (ascii_of_nat (48 + Z.to_nat d)) = false
  /\ ascii_of_nat (48 + Z.to_nat d) <> "-"%char
  /\ ascii_of_nat (48 + Z.to_nat d) <> "+"%char.
Proof.
  intros H.
  assert (d = 0 \/ d = 1 \/ d = 2 \/ d = 3 \/ d = 4 \/ d = 5 \/ d = 6 \/ d = 7
          \/ d = 8 \/ d = 9) as Hc by lia.
  repeat (destruct Hc as [-> | Hc]); try subst d;
    (split; [reflexivity | split; [reflexivity | split; discriminate]]).
Qed.

Lemma numeral_cons d ds :
  numeral (d :: ds) = String (ascii_of_nat (48 + Z.to_nat d)) (numeral ds).
Proof. reflexivity. Qed.

Lemma read_digits_numeral ds tail :
  Forall (fun d => 0 <= d <= 9) ds -> no_digit_ahead tail ->
  forall acc n,
    read_digits (numeral ds ++ tail) acc n
    = (fold_left (fun a d => 10 * a + d) ds acc, (n + List.length ds)%nat).
Proof.
  intros Hd Ht. induction Hd as [| d ds Hd0 Hd IH]; intros acc n.
  - cbn. rewrite Nat.add_0_r. destruct tail as [| c t]; [reflexivity |].
    cbn in Ht |- *. now rewrite Ht.
  - rewrite numeral_cons. cbn [append read_digits fold_left List.length].
    destruct (digit_char d Hd0) as (-> & _). rewrite IH. f_equal. lia.
Qed.

Lemma skip_spaces_app sp r :
  all_space sp = true ->
  match r with String c _ => is_space c = false | EmptyString => True end ->
  skip_spaces (sp ++ r) = r.
Proof.
  intros Hs Hr. induction sp as [| c sp IH].
  - cbn. destruct r as [| c r]; [reflexivity |]. cbn. now rewrite Hr.
  - cbn in Hs |- *. apply andb_true_iff in Hs. destruct Hs as [-> Hs]. now apply IH.
Qed.

(** What [strtoul] makes of white space, a sign, a numeral and a rest that
    does not go on with a digit. *)
Lemma strtoul_numeral sp sg ds tail :
  all_space sp = true -> ds <> [] -> Forall (fun d => 0 <= d <= 9) ds ->
  no_digit_ahead tail ->
  strtoul (sp ++ sign_text sg ++ numeral ds ++ tail)
  = if numeral_value ds >? ULONG_MAX then (ULONG_MAX, true, true)
    else (match sg with Minus => ulong (- numeral_value ds) | _ => numeral_value ds end,
          true, false).
Proof.
  intros Hs Hne Hd Ht. unfold strtoul.
  destruct ds as [| d ds]; [congruence |].
  pose proof (Forall_inv Hd) as Hd0.
  destruct (digit_char d Hd0) as (Dd & Ds & Dm & Dp).
  assert (Hread : forall acc n, read_digits (numeral (d :: ds) ++ tail) acc n
                  = (fold_left (fun a d => 10 * a + d) (d :: ds) acc,
                     (n + List.length (d :: ds))%nat))
    by (now apply read_digits_numeral).
  rewrite skip_spaces_app; [| assumption |].
  2:{ destruct sg; cbn [sign_text append]; try reflexivity.
      rewrite numeral_cons. cbn [append]. exact Ds. }
  destruct sg; cbn [sign_text append].
  - rewrite numeral_cons. cbn [append].
    set (c := ascii_of_nat (48 + Z.to_nat d)) in *.
    assert (E : forall (A : Type) (a b e : string -> A) r,
               match String c r with
               | String "-" r' => a r'
               | String "+" r' => b r'
               | _ => e (String c r)
               end = e (String c r)).
    { intros A a b e r. destruct c as [[] [] [] [] [] [] [] []];
        try reflexivity; congruence. }
    change (String c (numeral ds ++ tail)) with (numeral (d :: ds) ++ tail)%string in *.
    rewrite numeral_cons. cbn [append]. fold c.
    rewrite (E _ (fun r => (true, r)) (fun r => (false, r)) (fun s => (false, s))).
    change (String c (numeral ds ++ tail)) with (numeral (d :: ds) ++ tail)%string.
    rewrite Hread. cbn [Nat.add List.length]. reflexivity.
  - rewrite Hread. cbn [Nat.add List.length]. reflexivity.
  - rewrite Hread. cbn [Nat.add List.length]. reflexivity.
Qed.

(** X7. On white space, an optional sign, a decimal numeral and any rest
    that does not go on with a digit, [parse_uint] ignores the rest and
    takes the value of the numeral modulo 2^32 (after negation modulo 2^64
    under a minus sign): a numeral above [ULONG_MAX] is [ERANGE], and
    otherwise the range check is made on the wrapped value, so that
    4294967296 is accepted as 0. *)
Theorem parse_uint_numeral (sp : string) (sg : sign) (ds : list Z) (tail : string)
    (min max : Z) :
  all_space sp = true -> ds <> [] -> Forall (fun d => 0 <= d <= 9) ds ->
  no_digit_ahead tail ->
  let v := numeral_value ds in
  parse_uint (sp ++ sign_text sg ++ numeral ds ++ tail) min max
  = if v >? ULONG_MAX then (0, ERANGE)
    else let ret := uint (match sg with Minus => ulong (- v) | _ => v end) in
         if (ret <? min) || (ret >? max) then (0, ERANGE) else (ret, ENONE).
Proof.
  intros Hs Hne Hd Ht v. unfold parse_uint.
  rewrite strtoul_numeral by assumption. fold v.
  destruct (v >? ULONG_MAX); [reflexivity |].
  cbn [negb]. reflexivity.
Qed.

Lemma parse_uint_numeral_witness :
  parse_uint " 4294967296 segments" 0 834 = (0, ENONE).
Proof.
  apply (parse_uint_numeral " " NoSign [4; 2; 9; 4; 9; 6; 7; 2; 9; 6] " segments" 0 834).
  - reflexivity.
  - discriminate.
  - repeat constructor; lia.
  - reflexivity.
Defined.

Lemma parse_uint_ok str min max ret :
  parse_uint str min max = (ret, ENONE) -> min <= ret <= max /\ 0 <= ret < 2 ^ 32.
Proof.
  unfold parse_uint. destruct (strtoul str) as [[v moved] range_error].
  destruct range_error; [discriminate |].
  destruct moved; cbn [negb]; [| discriminate].
  destruct (Z.ltb_spec (uint v) min); [discriminate |].
  destruct (Z.gtb_spec (uint v) max); [discriminate |].
  cbn [orb]. intros [= <-]. pose proof (uint_range v). lia.
Qed.

Lemma parse_segment_index_ok env str min max msg ret :
  parse_segment_index env str min max msg = inl ret -> min <= ret <= max.
Proof.
  unfold parse_segment_index.
  destruct (parse_uint str min max) as [r e] eqn:E.
  destruct e; [| discriminate | discriminate].
  intros [= <-]. now apply parse_uint_ok in E.
Qed.

Lemma main_args_range env argv start end_ :
  main_args env argv = inl (start, end_) ->
  (3 <= List.length argv)%nat
  /\ SEGMENT_MIN <= start <= end_ /\ end_ <= SEGMENT_MAX
  /\ (List.length argv = 3%nat -> start = SEGMENT_MIN)
  /\ ((List.length argv <= 4)%nat -> end_ = SEGMENT_MAX).
Proof.
  unfold main_args.
  destruct argv as [| a0 [| a1 [| a2 rest]]]; try discriminate.
  assert (HM : SEGMENT_MIN = 0 /\ SEGMENT_MAX = 834) by (now split).
  destruct rest as [| a3 rest].
  - intros [= <- <-]. cbn. repeat split; lia.
  - destruct (parse_segment_index env a3 SEGMENT_MIN SEGMENT_MAX _) as [s | m] eqn:E3;
      [| discriminate].
    apply parse_segment_index_ok in E3.
    destruct rest as [| a4 rest].
    + intros [= <- <-]. cbn. repeat split; lia.
    + destruct (parse_segment_index env a4 s SEGMENT_MAX _) as [e | m] eqn:E4;
        [| discriminate].
      apply parse_segment_index_ok in E4.
      intros [= <- <-]. cbn. repeat split; lia.
Qed.

(** X8. When [main] gets past its arguments, the range it goes on with is
    valid: [0 <= start <= end <= 834], with [start = 0] and [end = 834] when
    they are not given; anything else has ended in [die]. *)
Theorem main_args_valid (env : environment) (argv : list string) (start end_ : Z) :
  main_args env argv = inl (start, end_) ->
  (3 <= List.length argv)%nat
  /\ 0 <= start <= end_ /\ end_ <= 834
  /\ (List.length argv = 3%nat -> start = 0)
  /\ ((List.length argv <= 4)%nat -> end_ = 834).
Proof. apply main_args_range. Qed.

Lemma main_args_valid_witness :
  (3 <= 5)%nat /\ 0 <= 5 <= 834 /\ 834 <= 834
  /\ (5%nat = 3%nat -> 5 = 0) /\ ((5 <= 4)%nat -> 834 = 834).
Proof.
  apply (main_args_valid (one_file_env "wmsetus.obj" minimal_segment 200)
           ["wmx2obj"; "wmsetus.obj"; "world.obj"; "5"; " +834th"]%string 5 834).
  vm_compute. reflexivity.
Defined.

(** ** Reads outside the buffer *)

Lemma undefined_some {A} (o : outcome A) idx :
  undefined_at o = Some idx -> o = Undef idx (final o).
Proof. destruct o; cbn; [discriminate | now intros [= ->]]. Qed.

Lemma polygon_indices_stray n i buf p w idx :
  undefined_at (polygon_indices n i buf p w) = Some idx ->
  ~ in_buf buf idx /\ p + i <= idx < p + i + Z.of_nat n
  /\ (idx = p + i \/ in_buf buf (idx - 1)).
Proof.
  revert i w. induction n as [| n IH]; intros i w H; [discriminate |].
  destruct (in_buf_dec buf (p + i)) as [Hi | Hi].
  - rewrite polygon_index_in in H by assumption.
    apply IH in H. destruct H as (H1 & H2 & [H3 | H3]).
    + subst idx. replace (p + (i + 1) - 1) with (p + i) by lia.
      repeat split; try lia; auto.
    + repeat split; try lia; auto.
  - cbn [polygon_indices] in H. unfold bind at 1 in H. unfold get_vid at 1 in H.
    rewrite bind_rd_out in H by assumption. cbn in H. injection H as <-.
    repeat split; try lia; auto.
Qed.

Lemma convert_polygon_stray buf p w idx :
  undefined_at (convert_polygon buf p w) = Some idx ->
  ~ in_buf buf idx /\ (idx = p \/ (in_buf buf (idx - 1) /\ p < idx <= p + 2)).
Proof.
  intros H. unfold convert_polygon in H.
  change (Z.to_nat VERTICES_PER_POLYGON) with 3%nat in H.
  unfold bind at 1 in H. unfold fwrite at 1 in H. unfold bind at 1 in H.
  destruct (polygon_indices 3 0 buf p _) as [a w1 | i w1] eqn:E.
  - cbn in H. discriminate.
  - cbn in H. injection H as ->.
    assert (E' : undefined_at (polygon_indices 3 0 buf p
                   (with_out (write "f" (out w)) w)) = Some idx) by (now rewrite E).
    apply polygon_indices_stray in E'. destruct E' as (H1 & H2 & [H3 | H3]).
    + split; [assumption | left; lia].
    + split; [assumption |].
      destruct (Z.eq_dec idx p); [now left | right; split; [assumption | lia]].
Qed.

Lemma convert_vertex_stray x z buf p w idx :
  undefined_at (convert_vertex x z buf p w) = Some idx ->
  ~ in_buf buf idx /\ (idx = p \/ (in_buf buf (idx - 1) /\ p < idx <= p + 5)).
Proof.
  intros H. unfold convert_vertex in H.
  destruct (in_buf_dec buf p) as [H0 | H0];
    [rewrite bind_rd_in in H by assumption
    | rewrite bind_rd_out in H by assumption; cbn in H; injection H as <-;
      split; [assumption | now left]].
  destruct (in_buf_dec buf (p + 1)) as [H1 | H1];
    [rewrite bind_rd_in in H by assumption
    | rewrite bind_rd_out in H by assumption; cbn in H; injection H as <-;
      split; [assumption | right; split; [now replace (p + 1 - 1) with p by lia | lia]]].
  destruct (in_buf_dec buf (p + 2)) as [H2 | H2];
    [rewrite bind_rd_in in H by assumption
    | rewrite bind_rd_out in H by assumption; cbn in H; injection H as <-;
      split; [assumption
             | right; split; [now replace (p + 2 - 1) with (p + 1) by lia | lia]]].
  destruct (in_buf_dec buf (p + 3)) as [H3 | H3];
    [rewrite bind_rd_in in H by assumption
    | rewrite bind_rd_out in H by assumption; cbn in H; injection H as <-;
      split; [assumption
             | right; split; [now replace (p + 3 - 1) with (p + 2) by lia | lia]]].
  destruct (in_buf_dec buf (p + 4)) as [H4 | H4];
    [rewrite bind_rd_in in H by assumption
    | rewrite bind_rd_out in H by assumption; cbn in H; injection H as <-;
      split; [assumption
             | right; split; [now replace (p + 4 - 1) with (p + 3) by lia | lia]]].
  destruct (in_buf_dec buf (p + 5)) as [H5 | H5];
    [rewrite bind_rd_in in H by assumption
    | rewrite bind_rd_out in H by assumption; cbn in H; injection H as <-;
      split; [assumption
             | right; split; [now replace (p + 5 - 1) with (p + 4) by lia | lia]]].
  cbn in H. discriminate.
Qed.

Lemma stray_first buf p idx :
  ~ in_buf buf idx -> idx = p \/ (in_buf buf (idx - 1) /\ p < idx) ->
  stray buf p idx.
Proof. unfold stray, in_buf. intros H [-> | [H1 H2]]; repeat split; try assumption; lia. Qed.

Lemma stray_next buf p q idx :
  in_buf buf q -> p <= q -> stray buf (q + 14) idx -> stray buf p idx.
Proof. unfold stray, in_buf. intros H1 H2 (H3 & H4 & H5). repeat split; try assumption; lia. Qed.

Lemma polygons_loop_stray n res buf p w idx :
  undefined_at (polygons_loop n res buf p w) = Some idx -> stray buf p idx.
Proof.
  revert res p w. induction n as [| n IH]; intros res p w H; [discriminate |].
  cbn [polygons_loop] in H. destruct res; [| discriminate].
  unfold bind in H.
  destruct (convert_polygon buf p w) as [r w1 | i w1] eqn:E.
  - apply convert_polygon_ret in E. destruct E as [_ E2].
    apply IH in H. apply (stray_next buf p (p + 2)); [assumption | lia |].
    replace (p + 2 + 14) with (p + POLYGON_SIZE) by (change POLYGON_SIZE with 16; lia).
    assumption.
  - cbn in H. injection H as ->.
    assert (E' : undefined_at (convert_polygon buf p w) = Some idx) by (now rewrite E).
    apply convert_polygon_stray in E'. destruct E' as [H1 H2].
    apply stray_first; [assumption |]. destruct H2 as [H2 | [H2 H3]]; [now left | right].
    split; [assumption | lia].
Qed.

Lemma polygons_loop_end n res buf p w r p' w' :
  polygons_loop n res buf p w = Ret (r, p') w' ->
  p <= p' <= Z.max p (Z.of_nat (List.length buf) + 13).
Proof.
  revert res p w. induction n as [| n IH]; intros res p w H.
  - cbn in H. injection H as _ <- _. lia.
  - cbn [polygons_loop] in H. destruct res; [| cbn in H; injection H as _ <- _; lia].
    unfold bind in H.
    destruct (convert_polygon buf p w) as [r1 w1 | i w1] eqn:E; [| discriminate].
    apply convert_polygon_ret in E. destruct E as [_ E2].
    apply IH in H. unfold in_buf in E2. change POLYGON_SIZE with 16 in H. lia.
Qed.

Lemma vertices_loop_stray n res x z buf p w idx :
  undefined_at (vertices_loop n res x z buf p w) = Some idx -> stray buf p idx.
Proof.
  revert res p w. induction n as [| n IH]; intros res p w H; [discriminate |].
  cbn [vertices_loop] in H. destruct res; [| discriminate].
  unfold bind in H.
  destruct (convert_vertex x z buf p w) as [r w1 | i w1] eqn:E.
  - apply convert_vertex_ret in E. destruct E as [_ E2].
    apply IH in H. unfold stray, in_buf in *. change VERTEX_SIZE with 8 in H.
    destruct H as (H1 & H2 & H3). repeat split; try assumption; lia.
  - cbn in H. injection H as ->.
    assert (E' : undefined_at (convert_vertex x z buf p w) = Some idx) by (now rewrite E).
    apply convert_vertex_stray in E'. destruct E' as [H1 H2].
    apply stray_first; [assumption |]. destruct H2 as [H2 | [H2 H3]]; [now left | right].
    split; [assumption | lia].
Qed.

Lemma convert_block_records_stray np nv x z buf p w idx :
  undefined_at (convert_block_records np nv x z buf p w) = Some idx ->
  stray buf p idx.
Proof.
  intros H. unfold convert_block_records in H.
  unfold bind at 1 in H. unfold get_vid at 1 in H.
  unfold bind at 1 in H. unfold set_prev_vert_max at 1 in H.
  unfold bind at 1 in H.
  destruct (polygons_loop (Z.to_nat np) true buf p _) as [[r p'] w1 | i w1] eqn:E.
  - apply polygons_loop_end in E.
    unfold bind in H.
    destruct (vertices_loop (Z.to_nat nv) r x z buf p' w1) as [[r2 p2] w2 | i w2] eqn:E2.
    + cbn in H. discriminate.
    + cbn in H. injection H as ->.
      assert (E' : undefined_at (vertices_loop (Z.to_nat nv) r x z buf p' w1) = Some idx)
        by (now rewrite E2).
      apply vertices_loop_stray in E'. unfold stray in *.
      destruct E' as (H1 & H2 & H3). repeat split; try assumption; lia.
  - cbn in H. injection H as ->.
    eapply polygons_loop_stray. rewrite E. reflexivity.
Qed.

(** The first read outside the buffer, in a block of a whole segment. *)
Lemma convert_block_stray pos x z buf w idx :
  0 <= pos < 16 -> Z.of_nat (List.length buf) = SEGMENT_SIZE ->
  undefined_at (convert_block pos x z buf w) = Some idx ->
  SEGMENT_SIZE <= idx <= SEGMENT_SIZE + 13.
Proof.
  intros Hp Hl H.
  assert (HS : SEGMENT_SIZE = 36864) by reflexivity.
  assert (HM : BLOCK_OFFSET_MAX = 34560) by reflexivity.
  destruct (Z_le_gt_dec (entry_offset buf pos) BLOCK_OFFSET_MAX) as [Hle | Hgt].
  - rewrite convert_block_accepts in H by (assumption || lia).
    unfold block_body in H. cbv zeta in H. unfold bind at 1 in H.
    destruct (convert_block_records _ _ _ _ buf _ w) as [r w1 | i w1] eqn:E.
    + cbn in H. discriminate.
    + cbn in H. injection H as ->.
      assert (E' : stray buf (entry_offset buf pos + BLOCK_HEADER_SIZE) idx).
      { eapply convert_block_records_stray. rewrite E. reflexivity. }
      pose proof (entry_offset_nonneg buf pos).
      unfold stray, in_buf in E'. change BLOCK_HEADER_SIZE with 4 in E'. lia.
  - rewrite convert_block_rejects in H by (assumption || lia). discriminate.
Qed.

Lemma blocks_loop_stray n i res x z buf w idx :
  0 <= i -> i + Z.of_nat n <= 16 -> Z.of_nat (List.length buf) = SEGMENT_SIZE ->
  undefined_at (blocks_loop n i res x z buf w) = Some idx ->
  SEGMENT_SIZE <= idx <= SEGMENT_SIZE + 13.
Proof.
  revert i res w. induction n as [| n IH]; intros i res w Hi Hn Hl H; [discriminate |].
  cbn [blocks_loop] in H. destruct res; [| discriminate].
  unfold bind in H.
  destruct (convert_block i x z buf w) as [r w1 | k w1] eqn:E.
  - rewrite uint_small in H by lia. apply IH in H; [assumption | lia | lia | assumption].
  - cbn in H. injection H as ->.
    apply (convert_block_stray i x z buf w); [lia | assumption | now rewrite E].
Qed.

Lemma convert_segment_stray pos w idx :
  undefined_at (convert_segment pos w) = Some idx ->
  SEGMENT_SIZE <= idx <= SEGMENT_SIZE + 13.
Proof.
  intros H.
  destruct (convert_segment_cases pos w)
    as [(buf & w0 & _ & E & Hl & _) | (ae & w1 & E & _)];
    rewrite E in H; [| discriminate].
  apply blocks_loop_stray in H; [assumption | lia | cbn; lia | exact Hl].
Qed.

Lemma segments_loop_stray n j res w idx :
  undefined_at (segments_loop n j res w) = Some idx ->
  SEGMENT_SIZE <= idx <= SEGMENT_SIZE + 13.
Proof.
  revert j res w. induction n as [| n IH]; intros j res w H; [discriminate |].
  cbn [segments_loop] in H. destruct res; [| discriminate].
  unfold bind in H.
  destruct (convert_segment j w) as [r w1 | k w1] eqn:E.
  - now apply IH in H.
  - cbn in H. injection H as ->.
    apply (convert_segment_stray j w). now rewrite E.
Qed.

Lemma convert_to_obj_stray start end_ w idx :
  undefined_at (convert_to_obj start end_ w) = Some idx ->
  SEGMENT_SIZE <= idx <= SEGMENT_SIZE + 13.
Proof.
  intros H. unfold convert_to_obj in H. unfold bind at 1 in H.
  destruct (fseek_cases (slong (ulong (start * SEGMENT_SIZE))) w) as [E | E];
    rewrite E in H.
  - cbn in H. discriminate.
  - unfold bind at 1 in H. unfold malloc at 1 in H.
    destruct (heap_ok (seek_to _ w)); cbn [negb] in H.
    + unfold bind at 1 in H. unfold init_vid at 1 in H.
      now apply segments_loop_stray in H.
    + cbn in H. discriminate.
Qed.

(** X9. The reads of a run leave the segment buffer only at its upper end,
    and only just: whatever the range and the file, the first read outside
    the buffer, if there is one, is at an index from [SEGMENT_SIZE] to
    [SEGMENT_SIZE + 13], in the records of a block whose offset passed the
    check.  No read is below the buffer. *)
Theorem first_stray_read (start end_ : Z) (w : world) (idx : Z) :
  undefined_at (convert_to_obj start end_ w) = Some idx ->
  SEGMENT_SIZE <= idx <= SEGMENT_SIZE + 13.
Proof. apply convert_to_obj_stray. Qed.

Lemma first_stray_read_witness :
  undefined_at (convert_to_obj 0 0 (run_world segment_stray 2000)) = Some 36877
  /\ SEGMENT_SIZE <= 36877 <= SEGMENT_SIZE + 13.
Proof.
  assert (H : undefined_at (convert_to_obj 0 0 (run_world segment_stray 2000))
              = Some 36877) by (vm_compute; reflexivity).
  split; [exact H |].
  exact (first_stray_read 0 0 (run_world segment_stray 2000) 36877 H).
Defined.

(** ** What the result of a run stands for *)

















(** ** The exit of [main] *)

(** X11. When [main] exits with [EXIT_SUCCESS], its arguments gave a valid
    range, both files were opened, [convert_to_obj] returned 1 on them, the
    input file holds every segment of the range whole, nothing was written
    to [stderr], and [stdout] holds the two lines of lines 262 and 268. *)
Theorem main_success (env : environment) (argv : list string)
    (so se : list string) (f : option OFILE) :
  main env argv = Exited EXIT_SUCCESS so se f ->
  exists start end_ i o w',
    main_args env argv = inl (start, end_)
    /\ 0 <= start <= end_ /\ end_ <= 834
    /\ fopen_in env (nth 1 argv ""%string) = inl i
    /\ fopen_out env (nth 2 argv ""%string) = inl o
    /\ convert_to_obj start end_ (start_world env i o) = Ret true w'
    /\ (end_ + 1) * SEGMENT_SIZE <= Z.of_nat (List.length (content i))
    /\ se = [] /\ f = Some (out w')
    /\ so = [("Starting conversion of segments " ++ dec start ++ "-" ++ dec end_
                ++ " to " ++ nth 2 argv "" ++ nl)%string;
             ("Conversion successful" ++ nl)%string].
Proof.
  unfold main. intros H.
  destruct (main_args env argv) as [[start end_] | msg] eqn:Ea; [| discriminate].
  destruct (fopen_in env (nth 1 argv ""%string)) as [i | e] eqn:Ei; [| discriminate].
  destruct (fopen_out env (nth 2 argv ""%string)) as [o | e] eqn:Eo; [| discriminate].
  destruct (convert_to_obj start end_ (start_world env i o)) as [r w' | k w'] eqn:Ec;
    [| discriminate].
  destruct r; [| discriminate].
  injection H as <- <- <-.
  destruct (main_args_range _ _ _ _ Ea) as (_ & Hr & He & _).
  change SEGMENT_MIN with 0 in Hr. change SEGMENT_MAX with 834 in He.
  destruct (convert_to_obj_true start end_ _ _ Hr He Ec) as (_ & _ & Hs & _ & Hl & _).
  exists start, end_, i, o, w'. repeat split; try assumption; lia.
Qed.

Lemma main_success_witness :
  exists start end_ i o w',
    main_args (one_file_env "wmsetus.obj" minimal_segment 200)
      ["wmx2obj"; "wmsetus.obj"; "world.obj"; "0"; "0"]%string = inl (start, end_)
    /\ 0 <= start <= end_ /\ end_ <= 834
    /\ fopen_in (one_file_env "wmsetus.obj" minimal_segment 200)
         "wmsetus.obj"%string = inl i
    /\ fopen_out (one_file_env "wmsetus.obj" minimal_segment 200)
         "world.obj"%string = inl o
    /\ convert_to_obj start end_
         (start_world (one_file_env "wmsetus.obj" minimal_segment 200) i o)
       = Ret true w'
    /\ (end_ + 1) * SEGMENT_SIZE <= Z.of_nat (List.length (content i)).
Proof.
  destruct (main_success (one_file_env "wmsetus.obj" minimal_segment 200)
              ["wmx2obj"; "wmsetus.obj"; "world.obj"; "0"; "0"]%string
              [("Starting conversion of segments 0-0 to world.obj" ++ nl)%string;
               ("Conversion successful" ++ nl)%string]
              []
              (Some (out (final (convert_to_obj 0 0
                 (start_world (one_file_env "wmsetus.obj" minimal_segment 200)
                    {| content := minimal_segment; fpos := 0; seekable := true;
                       faulty := false; eof := false |}
                    {| text := ""; room := 200; error := false |}))))))
    as (start & end_ & i & o & w' & H1 & H2 & H3 & H4 & H5 & H6 & H7 & _).
  - vm_compute. reflexivity.
  - exists start, end_, i, o, w'. repeat split; try assumption; lia.
Defined.


